(** * Huffman coding and empirical entropy: a shallow embedding of
      [Huffman coding/huffman_entropy.py]

    The development follows the Python module function by function.

    - Python [str] is [string], with the 8-bit characters of [ascii]; a
      text is iterated character by character, each character being a
      one-character [str].
    - Python [int] is [Z]; list indices and lengths are [nat].
    - Python [float] is idealised as a real number ([R]); [np.log2] is
      [ln x / ln 2].  Rounding is not modelled.
    - [collections.Counter] is an association list in first-insertion
      order (the iteration order of a [dict]), with missing keys read as 0.
    - [heapq] is the array heap of the Python standard library, on a list
      addressed by index with stdpp's lookup and insert.
    - Exceptions are results in an error monad.
    - The default argument [codes_list=[]] of [extract_huffman_codes] is one
      list object created when the function is defined and shared by every
      call that omits the argument: it is modelled as a store threaded
      through the calls, and a returned list is a reference into it. *)

From Stdlib Require Import ZArith List String Ascii DecimalString.
From Stdlib Require Import Reals Lra Lia Psatz Permutation.
From stdpp Require Import base list strings.
Import ListNotations.

Set Warnings "-register-all".

Local Open Scope string_scope.
Local Open Scope list_scope.
Local Open Scope nat_scope.

(** ** Exceptions *)

Inductive PyErr : Type :=
| IndexError
| ZeroDivisionError
| TypeError
| OutOfFuel.

Inductive Res (A : Type) : Type :=
| Ok (a : A)
| Err (e : PyErr).
Arguments Ok {A} a.
Arguments Err {A} e.

Definition bind {A B : Type} (m : Res A) (k : A -> Res B) : Res B :=
  match m with
  | Ok a => k a
  | Err e => Err e
  end.

Notation "'let*' p ':=' m 'in' k" := (bind m (fun p => k))
  (at level 10, p pattern, m at level 100, k at level 200).

(** ** Python values used by the module *)

(** A symbol payload: a [str], or the tuple built by the joint coder. *)
Inductive PySym : Type :=
| SymStr (s : string)
| SymTuple (l : list PySym).

(** [left.symbol + right.symbol]: concatenation on two [str] or on two
    tuples, [TypeError] on a mix. *)
Definition sym_add (a b : PySym) : Res PySym :=
  match a, b with
  | SymStr x, SymStr y => Ok (SymStr (x +:+ y))
  | SymTuple x, SymTuple y => Ok (SymTuple (x ++ y))
  | _, _ => Err TypeError
  end.

(** [Node.huff]: the empty [str] set by [__init__], or the [int] 0 or 1
    assigned by the merge loop. *)
Inductive Huff : Type :=
| HuffEmpty
| HuffInt (z : Z).

(** [str(node.huff)]: the [str] itself, or the decimal digits of the
    [int]. *)
Definition str_huff (h : Huff) : string :=
  match h with
  | HuffEmpty => ""
  | HuffInt z => NilZero.string_of_int (Z.to_int z)
  end.

(** ** Text, slices and ranges *)

(** Iterating a [str] yields its one-character substrings. *)
Definition chars (text : string) : list string :=
  map (fun c => String c "") (list_ascii_of_string text).

(** [range(0, n, 2)] *)
Definition range_step2 (n : nat) : list nat :=
  map (fun k => 2 * k) (seq 0 ((n + 1) / 2)).

(** [[text[i:i+step_size] for i in range(0, n, step_size)]] with
    [step_size = 2]; a slice past the end is truncated. *)
Definition pairs_of (text : string) : list string :=
  map (fun i => substring i 2 text) (range_step2 (String.length text)).

(** [pairs[-1] += '_'] *)
Definition pad_last (pairs : list string) : Res (list string) :=
  match pairs with
  | [] => Err IndexError
  | _ => Ok (removelast pairs ++ [List.last pairs "" +:+ "_"])
  end.

(** ** collections.Counter *)

Definition Counter_t : Type := list (string * Z).

Fixpoint counter_incr (k : string) (c : Counter_t) : Counter_t :=
  match c with
  | [] => [(k, 1%Z)]
  | (k', v) :: r =>
      if String.eqb k k' then (k', (v + 1)%Z) :: r
      else (k', v) :: counter_incr k r
  end.

Definition Counter (items : list string) : Counter_t :=
  fold_left (fun c k => counter_incr k c) items [].

(** [counter[key]] for a [str] key: a missing key reads as 0. *)
Fixpoint counter_get (c : Counter_t) (k : string) : Z :=
  match c with
  | [] => 0%Z
  | (k', v) :: r => if String.eqb k k' then v else counter_get r k
  end.

(** [counter[symbol]] for a symbol read back from a code list; a tuple is
    never equal to a [str] key. *)
Definition counter_get_sym (c : Counter_t) (s : PySym) : Z :=
  match s with
  | SymStr k => counter_get c k
  | SymTuple _ => 0%Z
  end.

Definition keys (c : Counter_t) : list string := map fst c.

(** ** class Node *)

Inductive Node : Type :=
| mkNode (freq : Z) (symbol : PySym) (left right : option Node) (huff : Huff).

Definition freq (n : Node) : Z := let (f, _, _, _, _) := n in f.
Definition symbol (n : Node) : PySym := let (_, s, _, _, _) := n in s.
Definition left (n : Node) : option Node := let (_, _, l, _, _) := n in l.
Definition right (n : Node) : option Node := let (_, _, _, r, _) := n in r.
Definition huff (n : Node) : Huff := let (_, _, _, _, h) := n in h.

(** [Node.__init__(self, freq, symbol, left=None, right=None)] *)
Definition Node_init (f : Z) (s : PySym) (l r : option Node) : Node :=
  mkNode f s l r HuffEmpty.

(** [node.huff = v] *)
Definition set_huff (n : Node) (v : Z) : Node :=
  mkNode (freq n) (symbol n) (left n) (right n) (HuffInt v).

(** [Node.__lt__]: frequencies only. *)
Definition Node_lt (a b : Node) : bool := (freq a <? freq b)%Z.

(** ** heapq *)

Definition heap_get (heap : list Node) (i : nat) : Res Node :=
  match heap !! i with
  | Some x => Ok x
  | None => Err IndexError
  end.

Definition heap_set (heap : list Node) (i : nat) (x : Node) : Res (list Node) :=
  if i <? length heap then Ok (<[i := x]> heap) else Err IndexError.

(** [list.pop()] *)
Definition list_pop (heap : list Node) : Res (Node * list Node) :=
  match rev heap with
  | [] => Err IndexError
  | x :: r => Ok (x, rev r)
  end.

(** The [while pos > startpos] loop of [_siftdown]; [(pos - 1) >> 1] is
    [(pos - 1) / 2]. *)
Fixpoint _siftdown_loop (fuel : nat) (heap : list Node) (newitem : Node)
    (startpos pos : nat) : Res (list Node) :=
  if startpos <? pos then
    match fuel with
    | O => Err OutOfFuel
    | S fuel' =>
        let parentpos := (pos - 1) / 2 in
        let* parent := heap_get heap parentpos in
        if Node_lt newitem parent then
          let* heap' := heap_set heap pos parent in
          _siftdown_loop fuel' heap' newitem startpos parentpos
        else heap_set heap pos newitem
    end
  else heap_set heap pos newitem.

Definition _siftdown (heap : list Node) (startpos pos : nat) : Res (list Node) :=
  let* newitem := heap_get heap pos in
  _siftdown_loop pos heap newitem startpos pos.

(** The [while childpos < endpos] loop of [_siftup]; it returns the list
    and the final [pos]. *)
Fixpoint _siftup_loop (fuel : nat) (heap : list Node) (endpos pos childpos : nat)
    : Res (list Node * nat) :=
  if childpos <? endpos then
    match fuel with
    | O => Err OutOfFuel
    | S fuel' =>
        let rightpos := childpos + 1 in
        let* c := heap_get heap childpos in
        let* pick_right :=
          (if rightpos <? endpos then
             let* r := heap_get heap rightpos in Ok (negb (Node_lt c r))
           else Ok false) in
        let childpos := if pick_right : bool then rightpos else childpos in
        let* x := heap_get heap childpos in
        let* heap' := heap_set heap pos x in
        _siftup_loop fuel' heap' endpos childpos (2 * childpos + 1)
    end
  else Ok (heap, pos).

Definition _siftup (heap : list Node) (pos : nat) : Res (list Node) :=
  let endpos := length heap in
  let startpos := pos in
  let* newitem := heap_get heap pos in
  let* (heap1, pos1) := _siftup_loop endpos heap endpos pos (2 * pos + 1) in
  let* heap2 := heap_set heap1 pos1 newitem in
  _siftdown heap2 startpos pos1.

Definition heappush (heap : list Node) (item : Node) : Res (list Node) :=
  let heap := heap ++ [item] in
  _siftdown heap 0 (length heap - 1).

Definition heappop (heap : list Node) : Res (Node * list Node) :=
  let* (lastelt, heap) := list_pop heap in
  match heap with
  | returnitem :: _ =>
      let* heap := heap_set heap 0 lastelt in
      let* heap := _siftup heap 0 in
      Ok (returnitem, heap)
  | [] => Ok (lastelt, [])
  end.

(** ** extract_huffman_codes *)

Definition CodeList : Type := list (PySym * string).

(** The list passed as [codes_list] is mutated in place; the function is
    written in state-passing style over that list. *)
Fixpoint extract_huffman_codes (node : Node) (code : string) (codes_list : CodeList)
    : CodeList :=
  match node with
  | mkNode _ sym l r h =>
      let new_code := code +:+ str_huff h in
      let codes_list :=
        match l with
        | Some ln => extract_huffman_codes ln new_code codes_list
        | None => codes_list
        end in
      let codes_list :=
        match r with
        | Some rn => extract_huffman_codes rn new_code codes_list
        | None => codes_list
        end in
      match l, r with
      | None, None => codes_list ++ [(sym, new_code)]
      | _, _ => codes_list
      end
  end.

(** ** generate_huffman_codes *)

(** What a call returns: the shared default list of [extract_huffman_codes]
    (the same object on every call), or a list created by the call. *)
Inductive ListRef : Type :=
| DefaultList
| FreshList (l : CodeList).

(** The contents of a returned list when the shared list holds [store]. *)
Definition deref (store : CodeList) (r : ListRef) : CodeList :=
  match r with
  | DefaultList => store
  | FreshList l => l
  end.

(** [for symbol in counter: heappush(nodes, Node(counter[symbol], symbol))] *)
Fixpoint push_leaves (counter : Counter_t) (ks : list string) (nodes : list Node)
    : Res (list Node) :=
  match ks with
  | [] => Ok nodes
  | k :: ks' =>
      let* nodes := heappush nodes (Node_init (counter_get counter k) (SymStr k) None None) in
      push_leaves counter ks' nodes
  end.

(** The merge loop; [mk_symbol] is the expression naming the new node
    ([left.symbol + right.symbol], or the tuple of the joint coder). *)
Fixpoint merge_loop (mk_symbol : PySym -> PySym -> Res PySym) (fuel : nat)
    (nodes : list Node) : Res (list Node) :=
  if 1 <? length nodes then
    match fuel with
    | O => Err OutOfFuel
    | S fuel' =>
        let* (l, nodes) := heappop nodes in
        let* (r, nodes) := heappop nodes in
        let l := set_huff l 0 in
        let r := set_huff r 1 in
        let* sym := mk_symbol (symbol l) (symbol r) in
        let new_node := Node_init (freq l + freq r)%Z sym (Some l) (Some r) in
        let* nodes := heappush nodes new_node in
        merge_loop mk_symbol fuel' nodes
    end
  else Ok nodes.

(** The tree construction shared by both coders: the heap after the loop. *)
Definition build_tree (mk_symbol : PySym -> PySym -> Res PySym) (items : list string)
    : Res (list Node) :=
  let counter := Counter items in
  let* nodes := push_leaves counter (keys counter) [] in
  merge_loop mk_symbol (length nodes) nodes.

(** [codes_list = []; if nodes: codes_list = extract_huffman_codes(nodes[0])]:
    the call omits [codes_list], so the traversal appends to the shared
    default list and returns that list. *)
Definition extract_root (store : CodeList) (nodes : list Node) : ListRef * CodeList :=
  match nodes with
  | root :: _ => (DefaultList, extract_huffman_codes root "" store)
  | [] => (FreshList [], store)
  end.

(** [generate_huffman_codes(text)], from the state [store] of the shared
    default list; it returns the list reference and the new state. *)
Definition generate_huffman_codes (store : CodeList) (text : string)
    : Res (ListRef * CodeList) :=
  let* nodes := build_tree sym_add (chars text) in
  Ok (extract_root store nodes).

(** ** generate_joint_huffman_codes *)

(** [pairs] as built by the joint coder, with the padding of the last one. *)
Definition joint_pairs (text : string) : Res (list string) :=
  let n := String.length text in
  let pairs := pairs_of text in
  if n mod 2 =? 1 then pad_last pairs else Ok pairs.

Definition mk_tuple (a b : PySym) : Res PySym := Ok (SymTuple [a; b]).

Definition generate_joint_huffman_codes (store : CodeList) (text : string)
    : Res (ListRef * CodeList) :=
  let* pairs := joint_pairs text in
  let* nodes := build_tree mk_tuple pairs in
  Ok (extract_root store nodes).

(** ** Entropy and average length *)

(** [np.log2] on the reals. *)
Definition log2 (x : R) : R := (ln x / ln 2)%R.

(** True division [a / b] of two [int]. *)
Definition py_div (a b : Z) : Res R :=
  if (b =? 0)%Z then Err ZeroDivisionError else Ok (IZR a / IZR b)%R.

(** [for symbol in counter.keys(): prob = counter[symbol] / n;
    entropy += prob * np.log2(prob)] *)
Fixpoint entropy_loop (counter : Counter_t) (n : Z) (ks : list string) (entropy : R)
    : Res R :=
  match ks with
  | [] => Ok entropy
  | k :: ks' =>
      let* prob := py_div (counter_get counter k) n in
      entropy_loop counter n ks' (entropy + prob * log2 prob)%R
  end.

Definition calculate_first_order_entropy (text : string) : Res R :=
  let n := String.length text in
  let counter := Counter (chars text) in
  let* entropy := entropy_loop counter (Z.of_nat n) (keys counter) 0%R in
  Ok (- entropy)%R.

Definition calculate_second_order_entropy (text : string) : Res R :=
  let pairs := pairs_of text in
  let counter := Counter pairs in
  let* entropy :=
    entropy_loop counter (Z.of_nat (length pairs)) (keys counter) 0%R in
  Ok ((- entropy) / 2)%R.

(** [for symbol, code in codes: avg_length += (counter[symbol] / n) * len(code)] *)
Fixpoint avg_loop (counter : Counter_t) (n : Z) (codes : CodeList) (avg_length : R)
    : Res R :=
  match codes with
  | [] => Ok avg_length
  | (sym, code) :: codes' =>
      let* p := py_div (counter_get_sym counter sym) n in
      avg_loop counter n codes'
        (avg_length + p * IZR (Z.of_nat (String.length code)))%R
  end.

(** The result and the new state of the shared list. *)
Definition calculate_average_codeword_length (store : CodeList) (text : string)
    : Res (R * CodeList) :=
  let n := String.length text in
  let counter := Counter (chars text) in
  let* (codes, store) := generate_huffman_codes store text in
  let* avg_length := avg_loop counter (Z.of_nat n) (deref store codes) 0%R in
  Ok (avg_length, store).

Definition calculate_joint_average_codeword_length (store : CodeList) (text : string)
    : Res (R * CodeList) :=
  let* pairs := joint_pairs text in
  let counter := Counter pairs in
  let* (codes, store) := generate_joint_huffman_codes store text in
  let* joint_avg_length :=
    avg_loop counter (Z.of_nat (length pairs)) (deref store codes) 0%R in
  Ok (joint_avg_length, store).

(** * Specification predicates *)

(** The heap order of [heapq]: no item is smaller than its parent, the
    parent of position [c] being position [(c - 1) / 2]. *)
Definition heap_ok (h : list Node) : Prop :=
  forall c x y, 1 <= c -> h !! c = Some x -> h !! ((c - 1) / 2) = Some y ->
    (freq y <= freq x)%Z.

(** Heap order on every edge that does not touch position [pos]. *)
Definition ok_away (h : list Node) (pos : nat) : Prop :=
  forall c x y, 1 <= c -> c <> pos -> (c - 1) / 2 <> pos ->
    h !! c = Some x -> h !! ((c - 1) / 2) = Some y -> (freq y <= freq x)%Z.

(** [item] may be stored at [pos]: it is not above the children of [pos]. *)
Definition below_ok (h : list Node) (pos : nat) (item : Node) : Prop :=
  forall c x, 1 <= c -> (c - 1) / 2 = pos -> h !! c = Some x ->
    (freq item <= freq x)%Z.

(** The parent of [pos] may be moved to [pos]: it is not above the
    children of [pos]. *)
Definition skip_ok (h : list Node) (pos : nat) : Prop :=
  forall c x y, 1 <= c -> (c - 1) / 2 = pos -> 1 <= pos ->
    h !! c = Some x -> h !! ((pos - 1) / 2) = Some y -> (freq y <= freq x)%Z.

(** The symbols of the leaves of a tree, left to right. *)
Fixpoint leaf_symbols (n : Node) : list PySym :=
  match n with
  | mkNode _ s l r _ =>
      match l, r with
      | None, None => [s]
      | _, _ =>
          match l with Some ln => leaf_symbols ln | None => [] end ++
          match r with Some rn => leaf_symbols rn | None => [] end
      end
  end.

(** The shape of the trees of the merge loop, over the counts [counter]:
    a node without children carries one key of [counter] and its count; a
    node with children has both, the left one tagged 0 and the right one
    tagged 1, and its frequency is the sum of theirs. *)
Fixpoint node_inv (counter : Counter_t) (n : Node) : Prop :=
  match n with
  | mkNode f s l r _ =>
      match l, r with
      | None, None =>
          exists k, s = SymStr k /\ k ∈ keys counter /\ f = counter_get counter k
      | Some ln, Some rn =>
          f = (freq ln + freq rn)%Z /\
          huff ln = HuffInt 0 /\ huff rn = HuffInt 1 /\
          node_inv counter ln /\ node_inv counter rn
      | _, _ => False
      end
  end.

(** Neither code is a prefix of the other. *)
Definition incomparable (a b : string) : Prop :=
  String.prefix a b = false /\ String.prefix b a = false.

Definition entries_incomparable (e1 e2 : PySym * string) : Prop :=
  incomparable (snd e1) (snd e2).

(** What the merge loop keeps true of the heap [nodes]: heap order, the
    shape of every tree, fresh roots whose symbols [mk_symbol] accepts
    ([Psym]), and the leaves being the keys of [counter]. *)
Definition forest_inv (counter : Counter_t) (Psym : PySym -> Prop)
    (nodes : list Node) : Prop :=
  heap_ok nodes /\
  Forall (node_inv counter) nodes /\
  Forall (fun n => Psym (symbol n) /\ huff n = HuffEmpty) nodes /\
  concat (map leaf_symbols nodes) ≡ₚ map SymStr (keys counter).

Definition is_str (s : PySym) : Prop :=
  match s with SymStr _ => True | SymTuple _ => False end.

(** The shape the specification asks of a tree built from [text]: a node
    has no child or two; with two, its frequency is the sum of theirs;
    with none, it carries one character of [text]. *)
Fixpoint full_tree (text : string) (n : Node) : Prop :=
  match n with
  | mkNode f s l r _ =>
      match l, r with
      | None, None =>
          exists c, s = SymStr (String c "") /\ In c (list_ascii_of_string text)
      | Some ln, Some rn =>
          f = (freq ln + freq rn)%Z /\ full_tree text ln /\ full_tree text rn
      | _, _ => False
      end
  end.

(** A use of the priority collection: the two operations the module calls. *)
Inductive HeapOp : Type :=
| Push (item : Node)
| Pop.

Fixpoint run_ops (ops : list HeapOp) (heap : list Node) : Res (list Node) :=
  match ops with
  | [] => Ok heap
  | Push item :: ops' => let* heap := heappush heap item in run_ops ops' heap
  | Pop :: ops' => let* (_, heap) := heappop heap in run_ops ops' heap
  end.

(** A leaf as the module creates it: [Node(count, symbol)]. *)
Definition leaf (count : Z) (k : string) : Node :=
  Node_init count (SymStr k) None None.

(** The leaf of key [k]: [Node(counter[k], k)]. *)
Definition leaf_of (counter : Counter_t) (k : string) : Node :=
  leaf (counter_get counter k) k.

(** The order-1 entropy as the specification words it, for comparison
    with [calculate_second_order_entropy]: the pairs are those of the joint
    mode, the last one padded when the length is odd. *)
Definition spec_second_order_entropy (text : string) : Res R :=
  let* pairs := joint_pairs text in
  let counter := Counter pairs in
  let* entropy :=
    entropy_loop counter (Z.of_nat (length pairs)) (keys counter) 0%R in
  Ok ((- entropy) / 2)%R.

(** The text made of [n] copies of the character [c]. *)
Fixpoint repeat_char (c : ascii) (n : nat) : string :=
  match n with
  | O => ""
  | S n' => String c (repeat_char c n')
  end.

(** The sum of [counter[symbol] / n * len(code)] over the entries of a
    code list. *)
Fixpoint weighted_length (counter : Counter_t) (n : Z) (codes : CodeList) : R :=
  match codes with
  | [] => 0%R
  | (sym, code) :: codes' =>
      (IZR (counter_get_sym counter sym) / IZR n *
         IZR (Z.of_nat (String.length code)) +
       weighted_length counter n codes')%R
  end.

(** The concatenation of a list of [str]. *)
Definition join (l : list string) : string := fold_right String.append "" l.

(** ** run_text_analysis_tests *)

(** What one iteration of the loop prints. *)
Record Report : Type := mkReport {
  input_string : string;
  first_order_entropy : R;
  second_order_entropy : R;
  average_codeword_length : R;
  joint_average_codeword_length : R
}.

(** The body of the loop, from the state [store] of the shared list. *)
Definition analyse_text (store : CodeList) (text : string)
    : Res (Report * CodeList) :=
  let* h1 := calculate_first_order_entropy text in
  let* h2 := calculate_second_order_entropy text in
  let* (avg, store) := calculate_average_codeword_length store text in
  let* (javg, store) := calculate_joint_average_codeword_length store text in
  Ok (mkReport text h1 h2 avg javg, store).

(** [for text in input_strings: ...], with [input_strings] the lines that
    [read_text_file] returned; the result lists what was printed. *)
Fixpoint run_text_analysis_tests (store : CodeList) (input_strings : list string)
    : Res (list Report * CodeList) :=
  match input_strings with
  | [] => Ok ([], store)
  | text :: rest =>
      let* (report, store) := analyse_text store text in
      let* (reports, store) := run_text_analysis_tests store rest in
      Ok (report :: reports, store)
  end.

(** ** Sums and measures used in the statements *)

Definition Zsum (l : list Z) : Z := fold_right Z.add 0%Z l.

Definition Rsum (l : list R) : R := fold_right Rplus 0%R l.

(** [counter[symbol] / n], the probability the loops give a symbol. *)
Definition probability (counter : Counter_t) (n : Z) (s : PySym) : R :=
  (IZR (counter_get_sym counter s) / IZR n)%R.

(** Every character of [s] is the digit 0 or the digit 1. *)
Fixpoint is_bits (s : string) : bool :=
  match s with
  | "" => true
  | String c s' => (Ascii.eqb c "0" || Ascii.eqb c "1") && is_bits s'
  end.

(** The Kraft sum of a code list: the sum of [2 ^ - len(code)]. *)
Definition kraft_sum (codes : CodeList) : R :=
  Rsum (map (fun e => (1 / 2) ^ String.length (snd e))%R codes).

(** * Properties *)

(** ** The error monad *)

Lemma bind_ok {A B : Type} (m : Res A) (k : A -> Res B) (b : B) :
  bind m k = Ok b -> exists a, m = Ok a /\ k a = Ok b.
Proof. destruct m as [a|e]; simpl; [eauto | discriminate]. Qed.

(** ** Lists addressed by index *)

Lemma heap_get_ok (heap : list Node) (i : nat) :
  i < length heap -> exists x, heap !! i = Some x /\ heap_get heap i = Ok x.
Proof.
  intros Hi. destruct (lookup_lt_is_Some_2 heap i Hi) as [x Hx].
  exists x. unfold heap_get. rewrite Hx. auto.
Qed.

Lemma heap_set_ok (heap : list Node) (i : nat) (x : Node) :
  i < length heap -> heap_set heap i x = Ok (<[i := x]> heap).
Proof.
  intros Hi. unfold heap_set.
  destruct (i <? length heap) eqn:E; [reflexivity|].
  apply Nat.ltb_ge in E. lia.
Qed.

Lemma list_pop_snoc (heap : list Node) (x : Node) :
  list_pop (heap ++ [x]) = Ok (x, heap).
Proof. unfold list_pop. rewrite rev_unit, rev_involutive. reflexivity. Qed.

Lemma list_pop_nonempty (heap : list Node) :
  heap <> [] -> exists x h, heap = h ++ [x] /\ list_pop heap = Ok (x, h).
Proof.
  intros Hne. destruct (exists_last Hne) as [h [x ->]].
  exists x, h. split; [reflexivity | apply list_pop_snoc].
Qed.

(** Exchanging the contents of two positions permutes the list. *)
Lemma insert_swap_perm (l : list Node) (i j : nat) (a b : Node) :
  i <> j -> l !! i = Some a -> l !! j = Some b ->
  <[j := a]> (<[i := b]> l) ≡ₚ l.
Proof.
  intros Hij Hi Hj.
  assert (Hone : forall (t : list Node) k u v,
             t !! k = Some u -> u :: <[k := v]> t ≡ₚ v :: t).
  { induction t as [|y t IH]; intros [|k] u v Hk; simpl in *; try discriminate.
    - injection Hk as ->. apply Permutation_swap.
    - rewrite (Permutation_swap y u), (IH _ _ v Hk). apply Permutation_swap. }
  revert i j Hij Hi Hj.
  induction l as [|y l IH]; intros [|i] [|j] Hij Hi Hj; simpl in *;
    try discriminate; try congruence.
  - injection Hi as ->. apply Hone, Hj.
  - injection Hj as ->. apply Hone, Hi.
  - apply Permutation_cons; [reflexivity|]. apply IH; auto.
Qed.

(** ** heapq: results, contents and order *)

Lemma lookup_insert_cases (l : list Node) (i j : nat) (x y : Node) :
  <[i := x]> l !! j = Some y -> (i = j /\ x = y) \/ (i <> j /\ l !! j = Some y).
Proof. rewrite list_lookup_insert_Some. tauto. Qed.

Lemma Node_lt_false (a b : Node) : Node_lt a b = false -> (freq b <= freq a)%Z.
Proof. unfold Node_lt. intros H. apply Z.ltb_ge in H. exact H. Qed.

Lemma Node_lt_true (a b : Node) : Node_lt a b = true -> (freq a < freq b)%Z.
Proof. unfold Node_lt. intros H. apply Z.ltb_lt in H. exact H. Qed.

Lemma store_hole_ok (h : list Node) (pos : nat) (item : Node) :
  pos < length h -> ok_away h pos -> below_ok h pos item ->
  (forall y, 1 <= pos -> h !! ((pos - 1) / 2) = Some y -> (freq y <= freq item)%Z) ->
  heap_ok (<[pos := item]> h).
Proof.
  intros Hlen Haway Hbelow Habove c x y Hc Hx Hy.
  assert (Hpc : (c - 1) / 2 < c) by (apply Nat.Div0.div_lt_upper_bound; lia).
  apply lookup_insert_cases in Hx as [[-> ->]|[Hne Hx]];
    apply lookup_insert_cases in Hy as [[Hp ->]|[Hnp Hy]]; try lia.
  - apply Habove; auto.
  - apply (Hbelow c); auto.
  - apply (Haway c); auto.
Qed.

Lemma _siftdown_loop_S (fuel : nat) (h : list Node) (newitem : Node)
    (startpos pos : nat) :
  _siftdown_loop (S fuel) h newitem startpos pos =
  if startpos <? pos then
    let* parent := heap_get h ((pos - 1) / 2) in
    if Node_lt newitem parent then
      let* heap' := heap_set h pos parent in
      _siftdown_loop fuel heap' newitem startpos ((pos - 1) / 2)
    else heap_set h pos newitem
  else heap_set h pos newitem.
Proof. reflexivity. Qed.

Lemma _siftdown_loop_spec (fuel : nat) :
  forall (h : list Node) (newitem : Node) (pos : nat),
    pos <= fuel -> pos < length h ->
    ok_away h pos -> below_ok h pos newitem -> skip_ok h pos ->
    exists h', _siftdown_loop fuel h newitem 0 pos = Ok h' /\
               heap_ok h' /\ h' ≡ₚ <[pos := newitem]> h /\ length h' = length h.
Proof.
  induction fuel as [|fuel IH]; intros h newitem pos Hfuel Hlen Haway Hbelow Hskip.
  - assert (pos = 0) as -> by lia. simpl. rewrite heap_set_ok by lia.
    eexists; split; [reflexivity|]. split; [|split; [reflexivity|apply length_insert]].
    apply store_hole_ok; auto. intros; lia.
  - rewrite _siftdown_loop_S. destruct (0 <? pos) eqn:Hpos.
    + apply Nat.ltb_lt in Hpos.
      assert (Hpp : (pos - 1) / 2 < pos) by (apply Nat.Div0.div_lt_upper_bound; lia).
      destruct (heap_get_ok h ((pos - 1) / 2)) as [parent [Hparent ->]]; [lia|].
      cbn [bind]. destruct (Node_lt newitem parent) eqn:Hlt.
      * rewrite heap_set_ok by lia. cbn [bind].
        apply Node_lt_true in Hlt.
        destruct (IH (<[pos := parent]> h) newitem ((pos - 1) / 2))
          as [h' [Hrun [Hok [Hperm Hlen']]]].
        -- lia.
        -- rewrite length_insert. lia.
        -- intros c x y Hc Hne Hnp Hx Hy.
           assert (Hpc : (c - 1) / 2 < c) by (apply Nat.Div0.div_lt_upper_bound; lia).
           apply lookup_insert_cases in Hx as [[-> ->]|[Hne' Hx]];
             apply lookup_insert_cases in Hy as [[Hp ->]|[Hnp' Hy]]; try lia.
           ++ apply (Hskip c); auto.
           ++ apply (Haway c); auto.
        -- intros c x Hc Hp Hx.
           apply lookup_insert_cases in Hx as [[-> ->]|[Hne' Hx]]; [lia|].
           assert (freq parent <= freq x)%Z; [|lia].
           apply (Haway c x parent); [lia | lia | lia | exact Hx |].
           rewrite Hp. exact Hparent.
        -- intros c x y Hc Hp Hpos1 Hx Hy.
           assert (Hgp : ((pos - 1) / 2 - 1) / 2 < (pos - 1) / 2)
             by (apply Nat.Div0.div_lt_upper_bound; lia).
           rewrite list_lookup_insert_ne in Hy by lia.
           assert (Hyp : (freq y <= freq parent)%Z).
           { apply (Haway ((pos - 1) / 2)); auto; lia. }
           apply lookup_insert_cases in Hx as [[-> ->]|[Hne' Hx]]; [lia|].
           assert (freq parent <= freq x)%Z; [|lia].
           apply (Haway c x parent); [lia | lia | lia | exact Hx |].
           rewrite Hp. exact Hparent.
        -- exists h'. split; [exact Hrun|]. split; [exact Hok|].
           rewrite length_insert in Hlen'. split; [|exact Hlen'].
           rewrite Hperm.
           rewrite <- (list_insert_insert_eq h pos parent newitem).
           apply insert_swap_perm.
           ++ lia.
           ++ apply list_lookup_insert_eq. lia.
           ++ rewrite list_lookup_insert_ne by lia. exact Hparent.
      * rewrite heap_set_ok by lia.
        eexists; split; [reflexivity|]. split; [|split; [reflexivity|apply length_insert]].
        apply store_hole_ok; auto.
        intros y _ Hy. rewrite Hparent in Hy. injection Hy as <-.
        apply Node_lt_false, Hlt.
    + apply Nat.ltb_ge in Hpos. assert (pos = 0) as -> by lia.
      rewrite heap_set_ok by lia.
      eexists; split; [reflexivity|]. split; [|split; [reflexivity|apply length_insert]].
      apply store_hole_ok; auto. intros; lia.
Qed.

Lemma heap_ok_nil : heap_ok [].
Proof. intros c x y _ Hx. rewrite lookup_nil in Hx. discriminate. Qed.

Lemma heap_ok_prefix (h : list Node) (x : Node) : heap_ok (h ++ [x]) -> heap_ok h.
Proof.
  intros Hok c a b Hc Ha Hb.
  apply (Hok c); auto using lookup_app_l_Some.
Qed.

Lemma heappush_spec (h : list Node) (item : Node) :
  heap_ok h ->
  exists h', heappush h item = Ok h' /\ heap_ok h' /\ h' ≡ₚ item :: h /\
             length h' = S (length h).
Proof.
  intros Hok. unfold heappush, _siftdown.
  assert (Hpos : length (h ++ [item]) - 1 = length h)
    by (rewrite length_app; simpl; lia).
  rewrite Hpos.
  assert (Hitem : (h ++ [item]) !! length h = Some item)
    by (apply list_lookup_middle; reflexivity).
  unfold heap_get at 1. rewrite Hitem. cbn [bind].
  assert (Hout : forall c, 1 <= c -> (c - 1) / 2 = length h ->
                           (h ++ [item]) !! c = None).
  { intros c Hc Hp. apply lookup_ge_None_2. rewrite length_app. simpl.
    assert ((c - 1) / 2 <= c - 1) by (apply Nat.Div0.div_le_upper_bound; lia). lia. }
  destruct (_siftdown_loop_spec (length h) (h ++ [item]) item (length h))
    as [h' [Hrun [Hok' [Hperm Hlen]]]].
  - lia.
  - rewrite length_app. simpl. lia.
  - intros c x y Hc Hne Hnp Hx Hy.
    assert (c < length h).
    { apply lookup_lt_Some in Hx. rewrite length_app in Hx. cbn [length] in Hx. lia. }
    assert ((c - 1) / 2 < length h).
    { apply lookup_lt_Some in Hy. rewrite length_app in Hy. cbn [length] in Hy. lia. }
    rewrite lookup_app_l in Hx, Hy by lia. apply (Hok c); auto.
  - intros c x Hc Hp Hx. rewrite Hout in Hx by auto. discriminate.
  - intros c x y Hc Hp _ Hx _. rewrite Hout in Hx by auto. discriminate.
  - exists h'. split; [exact Hrun|]. split; [exact Hok'|].
    rewrite list_insert_id in Hperm by exact Hitem.
    split.
    + rewrite Hperm. symmetry. apply Permutation_cons_append.
    + rewrite Hlen, length_app. simpl. lia.
Qed.

Lemma _siftup_loop_S (fuel : nat) (h : list Node) (endpos pos childpos : nat) :
  _siftup_loop (S fuel) h endpos pos childpos =
  if childpos <? endpos then
    let* c := heap_get h childpos in
    let* pick_right :=
      (if childpos + 1 <? endpos then
         let* r := heap_get h (childpos + 1) in Ok (negb (Node_lt c r))
       else Ok false) in
    let* x := heap_get h (if pick_right : bool then childpos + 1 else childpos) in
    let* heap' := heap_set h pos x in
    _siftup_loop fuel heap' endpos
      (if pick_right : bool then childpos + 1 else childpos)
      (2 * (if pick_right : bool then childpos + 1 else childpos) + 1)
  else Ok (h, pos).
Proof. reflexivity. Qed.

(** One iteration of the loop of [_siftup]: the smaller child of [pos]
    moves up and the hole moves to its place. *)
Lemma _siftup_step (h : list Node) (pos chosen : nat) (x : Node) :
  pos < length h -> ok_away h pos -> skip_ok h pos ->
  (chosen = 2 * pos + 1 \/ chosen = 2 * pos + 2) ->
  h !! chosen = Some x ->
  (forall c y, c <> chosen -> (c = 2 * pos + 1 \/ c = 2 * pos + 2) ->
               h !! c = Some y -> (freq x <= freq y)%Z) ->
  ok_away (<[pos := x]> h) chosen /\ skip_ok (<[pos := x]> h) chosen /\
  (forall z, <[chosen := z]> (<[pos := x]> h) ≡ₚ <[pos := z]> h).
Proof.
  intros Hlen Haway Hskip Hch Hx Hmin.
  assert (Hpar : (chosen - 1) / 2 = pos).
  { destruct Hch as [-> | ->].
    - replace (2 * pos + 1 - 1) with (pos * 2) by lia. apply Nat.div_mul. lia.
    - replace (2 * pos + 2 - 1) with (1 + pos * 2) by lia.
      rewrite Nat.div_add by lia. reflexivity. }
  assert (Hkids : forall c, 1 <= c -> (c - 1) / 2 = pos ->
                            c = 2 * pos + 1 \/ c = 2 * pos + 2).
  { intros c Hc Hp.
    pose proof (Nat.div_mod_eq (c - 1) 2) as Hdm.
    pose proof (Nat.mod_upper_bound (c - 1) 2) as Hm. lia. }
  split; [|split].
  - intros c a b Hc Hne Hnp Ha Hb.
    assert (Hpc : (c - 1) / 2 < c) by (apply Nat.Div0.div_lt_upper_bound; lia).
    apply lookup_insert_cases in Ha as [[-> ->]|[Hne' Ha]];
      apply lookup_insert_cases in Hb as [[Hp ->]|[Hnp' Hb]]; try lia.
    + apply (Hskip chosen); auto; lia.
    + apply (Hmin c); auto.
    + apply (Haway c); auto.
  - intros c a b Hc Hp _ Ha Hb.
    rewrite Hpar in Hb.
    rewrite list_lookup_insert_eq in Hb by lia. injection Hb as <-.
    assert (Hpc : (c - 1) / 2 < c) by (apply Nat.Div0.div_lt_upper_bound; lia).
    rewrite list_lookup_insert_ne in Ha by lia.
    apply (Haway c a x); [lia | lia | lia | exact Ha | rewrite Hp; exact Hx].
  - intros z.
    rewrite <- (list_insert_insert_eq h pos x z).
    apply insert_swap_perm.
    + lia.
    + apply list_lookup_insert_eq. lia.
    + rewrite list_lookup_insert_ne by lia. exact Hx.
Qed.

Lemma _siftup_loop_spec (fuel : nat) :
  forall (h : list Node) (endpos pos : nat),
    endpos = length h -> endpos - pos <= fuel -> pos < endpos ->
    ok_away h pos -> skip_ok h pos ->
    exists h' pos',
      _siftup_loop fuel h endpos pos (2 * pos + 1) = Ok (h', pos') /\
      length h' = endpos /\ pos' < endpos /\ endpos <= 2 * pos' + 1 /\
      ok_away h' pos' /\
      (forall z, <[pos' := z]> h' ≡ₚ <[pos := z]> h).
Proof.
  induction fuel as [|fuel IH]; intros h endpos pos Hend Hfuel Hlen Haway Hskip.
  - lia.
  - rewrite _siftup_loop_S. destruct (2 * pos + 1 <? endpos) eqn:Hchild.
    + apply Nat.ltb_lt in Hchild.
      destruct (heap_get_ok h (2 * pos + 1)) as [c [Hc ->]]; [lia|].
      cbn [bind].
      assert (Hpick : exists b chosen x,
                 (if 2 * pos + 1 + 1 <? endpos
                  then let* r := heap_get h (2 * pos + 1 + 1) in
                       Ok (negb (Node_lt c r))
                  else Ok false) = Ok b /\
                 chosen = (if b then 2 * pos + 1 + 1 else 2 * pos + 1) /\
                 (chosen = 2 * pos + 1 \/ chosen = 2 * pos + 2) /\
                 h !! chosen = Some x /\
                 (forall k y, k <> chosen ->
                    (k = 2 * pos + 1 \/ k = 2 * pos + 2) ->
                    h !! k = Some y -> (freq x <= freq y)%Z)).
      { destruct (2 * pos + 1 + 1 <? endpos) eqn:Hright.
        - apply Nat.ltb_lt in Hright.
          destruct (heap_get_ok h (2 * pos + 1 + 1)) as [r [Hr ->]]; [lia|].
          cbn [bind]. destruct (Node_lt c r) eqn:Hlt; cbn [negb].
          + exists false, (2 * pos + 1), c.
            repeat split; auto.
            intros k y Hk [->| ->] Hy; [lia|].
            replace (2 * pos + 2) with (2 * pos + 1 + 1) in Hy by lia.
            rewrite Hr in Hy. injection Hy as <-.
            apply Node_lt_true in Hlt. lia.
          + exists true, (2 * pos + 1 + 1), r.
            repeat split; auto; [right; lia|].
            intros k y Hk [->| ->] Hy; [|lia].
            rewrite Hc in Hy. injection Hy as <-.
            apply Node_lt_false, Hlt.
        - apply Nat.ltb_ge in Hright.
          exists false, (2 * pos + 1), c.
          repeat split; auto.
          intros k y Hk [->| ->] Hy; [lia|].
          apply lookup_lt_Some in Hy. lia. }
      destruct Hpick as [b [chosen [x [-> [Hchosen [Hkid [Hx Hmin]]]]]]].
      cbn [bind]. rewrite <- Hchosen.
      unfold heap_get at 1. rewrite Hx. cbn [bind].
      rewrite heap_set_ok by lia. cbn [bind].
      destruct (_siftup_step h pos chosen x) as [Haway' [Hskip' Hperm']]; auto; [lia|].
      destruct (IH (<[pos := x]> h) endpos chosen)
        as [h' [pos' [Hrun [Hlen' [Hpos' [Hleaf [Haway'' Hperm'']]]]]]]; auto.
      * rewrite length_insert. exact Hend.
      * lia.
      * apply lookup_lt_Some in Hx. lia.
      * exists h', pos'. split; [exact Hrun|]. repeat split; auto.
        intros z. rewrite Hperm''. apply Hperm'.
    + apply Nat.ltb_ge in Hchild. exists h, pos. repeat split; auto.
Qed.

Lemma _siftup_spec (h : list Node) :
  0 < length h -> ok_away h 0 ->
  exists h', _siftup h 0 = Ok h' /\ heap_ok h' /\ h' ≡ₚ h /\ length h' = length h.
Proof.
  intros Hlen Haway. unfold _siftup.
  destruct (heap_get_ok h 0) as [newitem [Hnew ->]]; [lia|]. cbn [bind].
  destruct (_siftup_loop_spec (length h) h (length h) 0)
    as [h1 [pos1 [Hrun [Hlen1 [Hpos1 [Hleaf [Haway1 Hperm1]]]]]]]; auto; try lia.
  { intros c x y _ _ Hcontra. lia. }
  change (2 * 0 + 1) with 1 in Hrun |- *. rewrite Hrun. cbn [bind].
  rewrite heap_set_ok by lia. cbn [bind].
  unfold _siftdown. unfold heap_get at 1.
  rewrite list_lookup_insert_eq by lia. cbn [bind].
  assert (Hout : forall c, 1 <= c -> (c - 1) / 2 = pos1 ->
                           <[pos1 := newitem]> h1 !! c = None).
  { intros c Hc Hp. apply lookup_ge_None_2. rewrite length_insert.
    pose proof (Nat.div_mod_eq (c - 1) 2) as Hdm.
    pose proof (Nat.mod_upper_bound (c - 1) 2) as Hm. lia. }
  destruct (_siftdown_loop_spec pos1 (<[pos1 := newitem]> h1) newitem pos1)
    as [h' [Hrun' [Hok' [Hperm' Hlen']]]].
  - lia.
  - rewrite length_insert. lia.
  - intros c x y Hc Hne Hnp Hx Hy.
    rewrite list_lookup_insert_ne in Hx, Hy by auto.
    apply (Haway1 c); auto.
  - intros c x Hc Hp Hx. rewrite Hout in Hx by auto. discriminate.
  - intros c x y Hc Hp _ Hx _. rewrite Hout in Hx by auto. discriminate.
  - exists h'. split; [exact Hrun'|]. split; [exact Hok'|].
    rewrite list_insert_insert_eq in Hperm'. rewrite length_insert in Hlen'.
    split; [|lia].
    rewrite Hperm', Hperm1. rewrite list_insert_id by exact Hnew. reflexivity.
Qed.

(** In heap order the first item has the least frequency. *)
Lemma heap_ok_root_min (h : list Node) (r : Node) :
  heap_ok h -> h !! 0 = Some r ->
  forall i y, h !! i = Some y -> (freq r <= freq y)%Z.
Proof.
  intros Hok Hr i. induction i as [i IH] using lt_wf_ind. intros y Hy.
  destruct (Nat.eq_dec i 0) as [->|Hi].
  - rewrite Hr in Hy. injection Hy as <-. lia.
  - assert (Hp : (i - 1) / 2 < i) by (apply Nat.Div0.div_lt_upper_bound; lia).
    destruct (lookup_lt_is_Some_2 h ((i - 1) / 2)) as [p Hpv].
    { apply lookup_lt_Some in Hy. lia. }
    pose proof (IH _ Hp p Hpv). pose proof (Hok i y p ltac:(lia) Hy Hpv). lia.
Qed.

Lemma heappop_spec (h : list Node) :
  heap_ok h -> h <> [] ->
  exists x h', heappop h = Ok (x, h') /\ heap_ok h' /\ h ≡ₚ x :: h' /\
               (forall y, y ∈ h -> (freq x <= freq y)%Z).
Proof.
  intros Hok Hne. unfold heappop.
  destruct (list_pop_nonempty h Hne) as [lastelt [h0 [-> ->]]]. cbn [bind].
  destruct h0 as [|returnitem t].
  - exists lastelt, []. split; [reflexivity|]. split; [apply heap_ok_nil|].
    split; [reflexivity|].
    intros y Hy. apply list_elem_of_singleton in Hy. subst. lia.
  - rewrite heap_set_ok by (simpl; lia). cbn [bind].
    change (<[0 := lastelt]> (returnitem :: t)) with (lastelt :: t).
    destruct (_siftup_spec (lastelt :: t)) as [h' [Hrun [Hok' [Hperm Hlen]]]].
    + simpl. lia.
    + intros c x y Hc Hc0 Hp0 Hx Hy.
      apply heap_ok_prefix in Hok.
      apply (Hok c); auto.
      * destruct c; [lia|exact Hx].
      * destruct ((c - 1) / 2) eqn:E; [lia|exact Hy].
    + rewrite Hrun. cbn [bind]. exists returnitem, h'.
      split; [reflexivity|]. split; [exact Hok'|]. split.
      * rewrite Hperm. rewrite <- Permutation_cons_append.
        apply Permutation_swap.
      * intros y Hy. apply list_elem_of_lookup in Hy as [i Hi].
        apply (heap_ok_root_min _ returnitem Hok) in Hi; auto.
Qed.

(** ** collections.Counter *)

Section CounterFacts.

Lemma counter_get_incr (c : Counter_t) (k k' : string) :
  counter_get (counter_incr k c) k' =
  if String.eqb k' k then (counter_get c k' + 1)%Z else counter_get c k'.
Proof.
  induction c as [|[k0 v] c IH]; simpl.
  - destruct (String.eqb k' k); reflexivity.
  - destruct (String.eqb_spec k k0) as [->|Hk]; simpl.
    + destruct (String.eqb_spec k' k0); reflexivity.
    + destruct (String.eqb_spec k' k0) as [->|Hk'].
      * destruct (String.eqb_spec k0 k); [congruence|reflexivity].
      * exact IH.
Qed.

Lemma keys_incr (c : Counter_t) (k : string) :
  keys (counter_incr k c) = if bool_decide (k ∈ keys c) then keys c else keys c ++ [k].
Proof.
  induction c as [|[k0 v] c IH]; simpl.
  - reflexivity.
  - destruct (String.eqb_spec k k0) as [->|Hk]; simpl.
    + rewrite bool_decide_eq_true_2 by apply list_elem_of_here. reflexivity.
    + fold (keys c). fold (keys (counter_incr k c)). rewrite IH.
      destruct (bool_decide (k ∈ keys c)) eqn:E.
      * apply bool_decide_eq_true_1 in E.
        rewrite bool_decide_eq_true_2 by (apply list_elem_of_further, E).
        reflexivity.
      * apply bool_decide_eq_false_1 in E.
        rewrite bool_decide_eq_false_2; [reflexivity|].
        intros Hin. apply elem_of_cons in Hin as [?|?]; congruence.
Qed.

Lemma Counter_snoc (items : list string) (k : string) :
  Counter (items ++ [k]) = counter_incr k (Counter items).
Proof. unfold Counter. rewrite fold_left_app. reflexivity. Qed.

Lemma keys_Counter_elem (items : list string) (k : string) :
  k ∈ keys (Counter items) <-> k ∈ items.
Proof.
  induction items as [|x items IH] using rev_ind.
  - simpl. split; intros H; inversion H.
  - rewrite Counter_snoc, keys_incr.
    destruct (bool_decide (x ∈ keys (Counter items))) eqn:E.
    + apply bool_decide_eq_true_1 in E.
      rewrite IH. rewrite elem_of_app, list_elem_of_singleton.
      split; [tauto|]. intros [H| ->]; [exact H|]. apply IH, E.
    + rewrite !elem_of_app, IH. reflexivity.
Qed.

Lemma keys_Counter_NoDup (items : list string) : NoDup (keys (Counter items)).
Proof.
  induction items as [|x items IH] using rev_ind.
  - constructor.
  - rewrite Counter_snoc, keys_incr.
    destruct (bool_decide (x ∈ keys (Counter items))) eqn:E; [exact IH|].
    apply bool_decide_eq_false_1 in E.
    apply NoDup_app. split; [exact IH|]. split.
    + intros y Hy Hy'. apply list_elem_of_singleton in Hy'. congruence.
    + apply NoDup_singleton.
Qed.

(** The number of occurrences of [k] in [items]. *)
Lemma counter_get_Counter (items : list string) (k : string) :
  counter_get (Counter items) k = Z.of_nat (count_occ string_dec items k).
Proof.
  induction items as [|x items IH] using rev_ind.
  - reflexivity.
  - rewrite Counter_snoc, counter_get_incr, IH, count_occ_app. simpl.
    destruct (String.eqb_spec k x) as [->|Hk].
    + destruct (string_dec x x); [|congruence].
      rewrite Nat2Z.inj_add. reflexivity.
    + destruct (string_dec x k); [congruence|].
      rewrite Nat.add_0_r. reflexivity.
Qed.

Lemma counter_get_pos (items : list string) (k : string) :
  k ∈ keys (Counter items) -> (0 < counter_get (Counter items) k)%Z.
Proof.
  intros Hk. rewrite keys_Counter_elem in Hk. rewrite counter_get_Counter.
  rewrite list_elem_of_In in Hk.
  rewrite (count_occ_In string_dec) in Hk. lia.
Qed.

Lemma counter_get_le (items : list string) (k : string) :
  (counter_get (Counter items) k <= Z.of_nat (length items))%Z.
Proof.
  rewrite counter_get_Counter.
  pose proof (count_occ_bound string_dec k items). lia.
Qed.

End CounterFacts.

(** ** Trees and code extraction *)

(** Induction on a tree, with the hypothesis for each child present. *)
Lemma Node_induction (P : Node -> Prop) :
  (forall f s l r h,
      match l with Some ln => P ln | None => True end ->
      match r with Some rn => P rn | None => True end ->
      P (mkNode f s l r h)) ->
  forall n, P n.
Proof.
  intros H. fix IH 1. intros [f s l r h]. apply H.
  - destruct l as [ln|]; [apply IH | exact I].
  - destruct r as [rn|]; [apply IH | exact I].
Qed.

Lemma string_app_cons (x : ascii) (a b : string) :
  String x a +:+ b = String x (a +:+ b).
Proof. reflexivity. Qed.

Lemma string_app_assoc (a b c : string) : (a +:+ b) +:+ c = a +:+ (b +:+ c).
Proof.
  induction a as [|x a IH]; [reflexivity|].
  rewrite !string_app_cons, IH. reflexivity.
Qed.

Lemma string_app_nil_r (a : string) : a +:+ "" = a.
Proof.
  induction a as [|x a IH]; [reflexivity|].
  rewrite string_app_cons, IH. reflexivity.
Qed.

Lemma prefix_app_same (c a b : string) :
  String.prefix (c +:+ a) (c +:+ b) = String.prefix a b.
Proof.
  induction c as [|x c IH]; [reflexivity|].
  rewrite !string_app_cons. cbn [String.prefix].
  destruct (ascii_dec x x); [exact IH | congruence].
Qed.

Lemma extract_app (n : Node) :
  forall code store,
    extract_huffman_codes n code store = store ++ extract_huffman_codes n code [].
Proof.
  induction n as [f s l r h IHl IHr] using Node_induction. intros code store.
  destruct l as [ln|], r as [rn|]; cbn [extract_huffman_codes].
  - rewrite (IHr _ (extract_huffman_codes ln _ store)), IHl.
    rewrite (IHr _ (extract_huffman_codes ln _ [])).
    rewrite List.app_assoc. reflexivity.
  - apply IHl.
  - apply IHr.
  - reflexivity.
Qed.

Lemma extract_symbols (n : Node) :
  forall code, map fst (extract_huffman_codes n code []) = leaf_symbols n.
Proof.
  induction n as [f s l r h IHl IHr] using Node_induction. intros code.
  destruct l as [ln|], r as [rn|];
    cbn [extract_huffman_codes leaf_symbols].
  - rewrite extract_app, map_app, IHl, IHr. reflexivity.
  - rewrite IHl, app_nil_r. reflexivity.
  - rewrite IHr. reflexivity.
  - reflexivity.
Qed.

(** Every code of a subtree extends the code accumulated on the way down. *)
Lemma extract_extends (n : Node) :
  forall code e, e ∈ extract_huffman_codes n code [] ->
    exists rest, snd e = code +:+ str_huff (huff n) +:+ rest.
Proof.
  induction n as [f s l r h IHl IHr] using Node_induction. intros code e He.
  assert (Hsub : forall (m : Node) e',
             (forall code' e'', e'' ∈ extract_huffman_codes m code' [] ->
                exists rest, snd e'' = code' +:+ str_huff (huff m) +:+ rest) ->
             e' ∈ extract_huffman_codes m (code +:+ str_huff h) [] ->
             exists rest, snd e' = code +:+ str_huff h +:+ rest).
  { intros m e' IH Hin. destruct (IH _ _ Hin) as [rest Hrest].
    exists (str_huff (huff m) +:+ rest). rewrite Hrest.
    apply string_app_assoc. }
  destruct l as [ln|], r as [rn|]; cbn [extract_huffman_codes huff] in *.
  - rewrite extract_app in He. apply elem_of_app in He as [He|He]; eauto.
  - eauto.
  - eauto.
  - apply list_elem_of_singleton in He. subst e. exists "". simpl.
    rewrite string_app_nil_r. reflexivity.
Qed.

Lemma FOP_app {A : Type} (R : A -> A -> Prop) (l1 l2 : list A) :
  ForallOrdPairs R l1 -> ForallOrdPairs R l2 ->
  (forall x y, x ∈ l1 -> y ∈ l2 -> R x y) ->
  ForallOrdPairs R (l1 ++ l2).
Proof.
  intros H1 H2 H12. induction H1 as [|a l Ha Hl IH]; simpl; [exact H2|].
  constructor.
  - apply Forall_app. split; [exact Ha|].
    apply Forall_forall. intros y Hy. apply H12; [apply list_elem_of_here | exact Hy].
  - apply IH. intros x y Hx Hy. apply H12; [apply list_elem_of_further, Hx | exact Hy].
Qed.

(** The codes extracted from a tree of the merge loop are prefix-free. *)
Lemma extract_prefix_free (counter : Counter_t) (n : Node) :
  node_inv counter n ->
  forall code, ForallOrdPairs entries_incomparable (extract_huffman_codes n code []).
Proof.
  induction n as [f s l r h IHl IHr] using Node_induction. intros Hinv code.
  destruct l as [ln|], r as [rn|]; cbn [node_inv] in Hinv; try contradiction.
  - destruct Hinv as [_ [H0 [H1 [Hl Hr]]]].
    cbn [extract_huffman_codes]. rewrite extract_app.
    apply FOP_app; [apply IHl, Hl | apply IHr, Hr |].
    intros x y Hx Hy.
    apply extract_extends in Hx as [rx Hx]. apply extract_extends in Hy as [ry Hy].
    unfold entries_incomparable, incomparable. rewrite Hx, Hy, H0, H1.
    change (str_huff (HuffInt 0)) with "0".
    change (str_huff (HuffInt 1)) with "1".
    rewrite !prefix_app_same, !string_app_cons.
    split; reflexivity.
  - cbn [extract_huffman_codes]. repeat constructor.
Qed.

Lemma concat_map_perm {A B : Type} (f : A -> list B) (l l' : list A) :
  l ≡ₚ l' -> concat (map f l) ≡ₚ concat (map f l').
Proof.
  induction 1 as [|x l l' _ IH|x y l|l l' l'' _ IH1 _ IH2]; simpl.
  - reflexivity.
  - rewrite IH. reflexivity.
  - rewrite !List.app_assoc. apply Permutation_app_tail, Permutation_app_comm.
  - rewrite IH1. exact IH2.
Qed.

Lemma node_inv_set_huff (counter : Counter_t) (n : Node) (v : Z) :
  node_inv counter n -> node_inv counter (set_huff n v).
Proof. destruct n as [f s l r h]. intros H. exact H. Qed.

Lemma leaf_symbols_set_huff (n : Node) (v : Z) :
  leaf_symbols (set_huff n v) = leaf_symbols n.
Proof. destruct n as [f s l r h]. reflexivity. Qed.

(** ** The merge loop *)

Section Merge.

Variable counter : Counter_t.
Variable mk_symbol : PySym -> PySym -> Res PySym.
Variable Psym : PySym -> Prop.
Hypothesis Psym_str : forall k, Psym (SymStr k).
Hypothesis mk_symbol_ok :
  forall a b, Psym a -> Psym b -> exists s, mk_symbol a b = Ok s /\ Psym s.

Lemma push_leaves_spec (ks : list string) :
  forall nodes, heap_ok nodes ->
    exists nodes', push_leaves counter ks nodes = Ok nodes' /\ heap_ok nodes' /\
                   nodes' ≡ₚ map (leaf_of counter) ks ++ nodes.
Proof.
  induction ks as [|k ks IH]; intros nodes Hok; cbn [push_leaves].
  - exists nodes. repeat split; auto.
  - destruct (heappush_spec nodes (leaf_of counter k) Hok) as [n1 [Hpush [Hok1 [Hperm1 _]]]].
    unfold leaf_of, leaf in Hpush. rewrite Hpush. cbn [bind].
    destruct (IH n1 Hok1) as [n2 [Hrun [Hok2 Hperm2]]].
    exists n2. split; [exact Hrun|]. split; [exact Hok2|].
    rewrite Hperm2, Hperm1. cbn [map]. symmetry. apply Permutation_middle.
Qed.

Lemma forest_inv_leaves (nodes : list Node) :
  heap_ok nodes -> nodes ≡ₚ map (leaf_of counter) (keys counter) ->
  forest_inv counter Psym nodes.
Proof.
  intros Hok Hperm. split; [exact Hok|].
  assert (Hall : forall k, k ∈ keys counter ->
            node_inv counter (leaf_of counter k) /\
            Psym (symbol (leaf_of counter k)) /\ huff (leaf_of counter k) = HuffEmpty).
  { intros k Hk. split; [|split; [apply Psym_str | reflexivity]].
    exists k. auto. }
  split; [|split].
  - rewrite Hperm. apply Forall_fmap, Forall_forall. intros k Hk. apply Hall, Hk.
  - rewrite Hperm. apply Forall_fmap, Forall_forall. intros k Hk. apply Hall, Hk.
  - rewrite (concat_map_perm _ _ _ Hperm). clear.
    induction (keys counter) as [|k ks IH]; simpl; [reflexivity|].
    apply Permutation_cons; [reflexivity | exact IH].
Qed.

Lemma merge_loop_S (fuel : nat) (nodes : list Node) :
  merge_loop mk_symbol (S fuel) nodes =
  if 1 <? length nodes then
    let* (l, nodes) := heappop nodes in
    let* (r, nodes) := heappop nodes in
    let l := set_huff l 0 in
    let r := set_huff r 1 in
    let* sym := mk_symbol (symbol l) (symbol r) in
    let new_node := Node_init (freq l + freq r)%Z sym (Some l) (Some r) in
    let* nodes := heappush nodes new_node in
    merge_loop mk_symbol fuel nodes
  else Ok nodes.
Proof. reflexivity. Qed.

(** One iteration of the merge loop. *)
Lemma merge_step (nodes : list Node) :
  forest_inv counter Psym nodes -> 1 < length nodes ->
  exists l n1 r n2 sym n3,
    heappop nodes = Ok (l, n1) /\ heappop n1 = Ok (r, n2) /\
    mk_symbol (symbol (set_huff l 0)) (symbol (set_huff r 1)) = Ok sym /\
    heappush n2 (Node_init (freq (set_huff l 0) + freq (set_huff r 1))%Z sym
                   (Some (set_huff l 0)) (Some (set_huff r 1))) = Ok n3 /\
    forest_inv counter Psym n3 /\ S (length n3) = length nodes.
Proof.
  intros [Hok [Hinv [Hroot Hleaves]]] Hlen.
  destruct (heappop_spec nodes Hok) as [l [n1 [Hpop1 [Hok1 [Hperm1 _]]]]].
  { intros ->. simpl in Hlen. lia. }
  assert (Hlen1 : length nodes = S (length n1)).
  { rewrite (Permutation_length Hperm1). reflexivity. }
  destruct (heappop_spec n1 Hok1) as [r [n2 [Hpop2 [Hok2 [Hperm2 _]]]]].
  { intros ->. simpl in Hlen1. lia. }
  assert (Hlen2 : length n1 = S (length n2)).
  { rewrite (Permutation_length Hperm2). reflexivity. }
  assert (Hperm : nodes ≡ₚ l :: r :: n2) by (rewrite Hperm1, Hperm2; reflexivity).
  rewrite Hperm in Hinv, Hroot.
  apply Forall_cons in Hinv as [Hl Hinv]. apply Forall_cons in Hinv as [Hr Hinv].
  apply Forall_cons in Hroot as [[HPl _] Hroot].
  apply Forall_cons in Hroot as [[HPr _] Hroot].
  destruct (mk_symbol_ok (symbol (set_huff l 0)) (symbol (set_huff r 1)))
    as [sym [Hsym HPsym]].
  { destruct l; exact HPl. }
  { destruct r; exact HPr. }
  set (new_node := Node_init (freq (set_huff l 0) + freq (set_huff r 1))%Z sym
                     (Some (set_huff l 0)) (Some (set_huff r 1))).
  destruct (heappush_spec n2 new_node Hok2) as [n3 [Hpush [Hok3 [Hperm3 Hlen3]]]].
  exists l, n1, r, n2, sym, n3.
  repeat (split; [assumption|]).
  split; [|lia].
  split; [exact Hok3|]. split; [|split].
  - rewrite Hperm3. apply Forall_cons. split; [|exact Hinv].
    unfold new_node, Node_init. cbn [node_inv].
    split; [reflexivity|]. split; [reflexivity|]. split; [reflexivity|].
    split; apply node_inv_set_huff; assumption.
  - rewrite Hperm3. apply Forall_cons. split; [|exact Hroot].
    split; [exact HPsym | reflexivity].
  - rewrite (concat_map_perm _ _ _ Hperm3).
    rewrite (concat_map_perm _ _ _ Hperm) in Hleaves.
    rewrite <- Hleaves. cbn [map concat new_node Node_init leaf_symbols].
    rewrite !leaf_symbols_set_huff, <- List.app_assoc. reflexivity.
Qed.

Lemma merge_loop_spec (fuel : nat) :
  forall nodes, length nodes <= S fuel -> forest_inv counter Psym nodes ->
    exists nodes', merge_loop mk_symbol fuel nodes = Ok nodes' /\
                   forest_inv counter Psym nodes' /\
                   length nodes' <= 1 /\ (nodes <> [] -> nodes' <> []).
Proof.
  induction fuel as [|fuel IH]; intros nodes Hfuel Hinv.
  - exists nodes. cbn [merge_loop].
    destruct (1 <? length nodes) eqn:E; [apply Nat.ltb_lt in E; lia|].
    split; [reflexivity|]. split; [exact Hinv|]. split; [lia|auto].
  - rewrite merge_loop_S. destruct (1 <? length nodes) eqn:E.
    + apply Nat.ltb_lt in E.
      destruct (merge_step nodes Hinv E)
        as [l [n1 [r [n2 [sym [n3 [-> [Hpop2 [Hsym [Hpush [Hinv3 Hlen3]]]]]]]]]]].
      cbn [bind]. rewrite Hpop2. cbn [bind]. cbv zeta.
      rewrite Hsym. cbn [bind]. rewrite Hpush. cbn [bind].
      destruct (IH n3) as [nodes' [Hrun [Hinv' [Hlen' Hne']]]]; [lia | exact Hinv3 |].
      exists nodes'. split; [exact Hrun|]. split; [exact Hinv'|].
      split; [exact Hlen'|].
      intros _. apply Hne'. intros ->. simpl in Hlen3. lia.
    + exists nodes. apply Nat.ltb_ge in E.
      split; [reflexivity|]. split; [exact Hinv|]. split; [lia|auto].
Qed.

End Merge.

(** ** Tree construction *)

Lemma sym_add_ok (a b : PySym) :
  is_str a -> is_str b -> exists s, sym_add a b = Ok s /\ is_str s.
Proof.
  destruct a as [x|x], b as [y|y]; simpl; try contradiction.
  intros _ _. eexists. split; [reflexivity | exact I].
Qed.

Lemma mk_tuple_ok (a b : PySym) :
  True -> True -> exists s, mk_tuple a b = Ok s /\ True.
Proof. intros _ _. eexists. split; [reflexivity | exact I]. Qed.

Lemma build_tree_spec (mk_symbol : PySym -> PySym -> Res PySym)
    (Psym : PySym -> Prop) (items : list string) :
  (forall k, Psym (SymStr k)) ->
  (forall a b, Psym a -> Psym b -> exists s, mk_symbol a b = Ok s /\ Psym s) ->
  exists nodes, build_tree mk_symbol items = Ok nodes /\
                forest_inv (Counter items) Psym nodes /\
                length nodes <= 1 /\ (items <> [] -> nodes <> []).
Proof.
  intros Hstr Hmk. unfold build_tree.
  destruct (push_leaves_spec (Counter items) (keys (Counter items)) [] heap_ok_nil)
    as [n0 [-> [Hok0 Hperm0]]].
  cbn [bind]. rewrite app_nil_r in Hperm0.
  destruct (merge_loop_spec (Counter items) mk_symbol Psym Hmk (length n0) n0)
    as [nodes [Hrun [Hinv [Hlen Hne]]]].
  - lia.
  - apply forest_inv_leaves; assumption.
  - exists nodes. split; [exact Hrun|]. split; [exact Hinv|]. split; [exact Hlen|].
    intros Hitems. apply Hne. intros ->.
    apply Permutation_nil_l in Hperm0. symmetry in Hperm0.
    apply map_eq_nil in Hperm0.
    destruct items as [|x items]; [congruence|].
    assert (Hx : x ∈ keys (Counter (x :: items))).
    { apply keys_Counter_elem, list_elem_of_here. }
    rewrite Hperm0 in Hx. inversion Hx.
Qed.

(** The tree of a non-empty input and the codes read off it. *)
Lemma build_tree_root (mk_symbol : PySym -> PySym -> Res PySym)
    (Psym : PySym -> Prop) (items : list string) :
  (forall k, Psym (SymStr k)) ->
  (forall a b, Psym a -> Psym b -> exists s, mk_symbol a b = Ok s /\ Psym s) ->
  items <> [] ->
  exists root, build_tree mk_symbol items = Ok [root] /\
               node_inv (Counter items) root /\ huff root = HuffEmpty /\
               leaf_symbols root ≡ₚ map SymStr (keys (Counter items)).
Proof.
  intros Hstr Hmk Hne.
  destruct (build_tree_spec mk_symbol Psym items Hstr Hmk)
    as [nodes [Hrun [[_ [Hinv [Hroot Hleaves]]] [Hlen Hnodes]]]].
  destruct nodes as [|root [|? ?]];
    [exfalso; apply (Hnodes Hne); reflexivity | | simpl in Hlen; lia].
  exists root. split; [exact Hrun|].
  apply Forall_cons in Hinv as [Hinv _]. apply Forall_cons in Hroot as [[_ Hh] _].
  simpl in Hleaves. rewrite app_nil_r in Hleaves. auto.
Qed.

Lemma chars_nonempty (text : string) : text <> "" -> chars text <> [].
Proof. destruct text; [congruence | discriminate]. Qed.

Lemma chars_length (text : string) : length (chars text) = String.length text.
Proof.
  unfold chars. rewrite length_map.
  induction text as [|c text IH]; simpl; [reflexivity | rewrite IH; reflexivity].
Qed.

Lemma chars_elem (text : string) (k : string) :
  k ∈ chars text <-> exists c, k = String c "" /\ In c (list_ascii_of_string text).
Proof.
  unfold chars. rewrite list_elem_of_fmap.
  split; intros [c [Hk Hc]]; exists c; split; auto; apply list_elem_of_In; exact Hc.
Qed.

#[local] Instance SymStr_inj : Inj (=) (=) SymStr.
Proof. intros a b H. injection H as ->. reflexivity. Qed.

(** [generate_huffman_codes] on a non-empty text: the traversal appends
    the codes of the tree to whatever the shared list already holds. *)
Lemma generate_huffman_codes_spec (store : CodeList) (text : string) :
  text <> "" ->
  exists root,
    build_tree sym_add (chars text) = Ok [root] /\
    generate_huffman_codes store text =
      Ok (DefaultList, store ++ extract_huffman_codes root "" []) /\
    node_inv (Counter (chars text)) root /\ huff root = HuffEmpty /\
    map fst (extract_huffman_codes root "" []) ≡ₚ
      map SymStr (keys (Counter (chars text))).
Proof.
  intros Hne.
  destruct (build_tree_root sym_add is_str (chars text))
    as [root [Hrun [Hinv [Hh Hleaves]]]].
  - intros k. exact I.
  - apply sym_add_ok.
  - apply chars_nonempty, Hne.
  - exists root. split; [exact Hrun|]. unfold generate_huffman_codes.
    rewrite Hrun. cbn [bind extract_root]. rewrite extract_app.
    repeat split; auto. rewrite extract_symbols. exact Hleaves.
Qed.

(** * The claims *)

(** C2. For every non-empty text, the code table that
    [generate_huffman_codes] produces when the shared list is still empty
    has exactly one entry per distinct character of the text (no symbol
    twice, and the symbols are the characters of the text), and it is
    prefix-free: for two entries with distinct symbols, the code of the
    one is not a prefix of the code of the other. *)
Theorem C2_fresh_code_table_prefix_free (text : string) :
  text <> "" ->
  exists codes,
    generate_huffman_codes [] text = Ok (DefaultList, codes) /\
    NoDup (map fst codes) /\
    (forall s, s ∈ map fst codes <->
       exists c, s = SymStr (String c "") /\ In c (list_ascii_of_string text)) /\
    (forall s1 c1 s2 c2, (s1, c1) ∈ codes -> (s2, c2) ∈ codes -> s1 <> s2 ->
       String.prefix c1 c2 = false).
Proof.
  intros Hne.
  destruct (generate_huffman_codes_spec [] text Hne)
    as [root [_ [Hgen [Hinv [_ Hsyms]]]]].
  exists (extract_huffman_codes root "" []).
  split; [exact Hgen|]. split; [|split].
  - rewrite Hsyms. apply (NoDup_fmap_2 SymStr), keys_Counter_NoDup.
  - intros s. rewrite Hsyms, list_elem_of_fmap. split.
    + intros [k [-> Hk]]. apply keys_Counter_elem, chars_elem in Hk as [c [-> Hc]].
      exists c. auto.
    + intros [c [-> Hc]]. exists (String c ""). split; [reflexivity|].
      apply keys_Counter_elem, chars_elem. exists c. auto.
  - intros s1 c1 s2 c2 H1 H2 Hs.
    pose proof (extract_prefix_free _ root Hinv "") as Hfree.
    apply list_elem_of_In in H1, H2.
    destruct (ForallOrdPairs_In Hfree _ _ H1 H2) as [Heq|[[Ha Hb]|[Ha Hb]]].
    + congruence.
    + exact Ha.
    + exact Hb.
Qed.

Lemma C2_witness :
  exists codes,
    generate_huffman_codes [] "AAAB" = Ok (DefaultList, codes) /\
    NoDup (map fst codes) /\
    (forall s, s ∈ map fst codes <->
       exists c, s = SymStr (String c "") /\ In c (list_ascii_of_string "AAAB")) /\
    (forall s1 c1 s2 c2, (s1, c1) ∈ codes -> (s2, c2) ∈ codes -> s1 <> s2 ->
       String.prefix c1 c2 = false).
Proof. apply (C2_fresh_code_table_prefix_free "AAAB"). discriminate. Defined.

Lemma node_inv_full_tree (text : string) (n : Node) :
  node_inv (Counter (chars text)) n -> full_tree text n.
Proof.
  induction n as [f s l r h IHl IHr] using Node_induction. intros Hinv.
  destruct l as [ln|], r as [rn|]; cbn [node_inv full_tree] in *; try contradiction.
  - destruct Hinv as [Hf [_ [_ [Hl Hr]]]]. auto.
  - destruct Hinv as [k [-> [Hk _]]].
    apply keys_Counter_elem, chars_elem in Hk as [c [-> Hc]]. exists c. auto.
Qed.

(** C9. For every text the merge loop of [generate_huffman_codes] ends,
    and every tree it leaves in the heap (at most one, the root, whose
    subtrees are all the trees merged on the way) satisfies at every node:
    a node with children has two and its frequency is the sum of theirs; a
    node without children carries one character of the text; no node has
    exactly one child.  Distinct leaves carry distinct characters. *)
Theorem C9_merge_loop_builds_full_trees (text : string) :
  exists nodes,
    build_tree sym_add (chars text) = Ok nodes /\
    length nodes <= 1 /\
    Forall (full_tree text) nodes /\
    NoDup (concat (map leaf_symbols nodes)).
Proof.
  destruct (build_tree_spec sym_add is_str (chars text))
    as [nodes [Hrun [[_ [Hinv [_ Hleaves]]] [Hlen _]]]].
  - intros k. exact I.
  - apply sym_add_ok.
  - exists nodes. split; [exact Hrun|]. split; [exact Hlen|]. split.
    + eapply Forall_impl; [exact Hinv|]. intros n. apply node_inv_full_tree.
    + rewrite Hleaves.
      apply (NoDup_fmap_2 SymStr), keys_Counter_NoDup.
Qed.

(** On a non-empty text a call appends the codes of its tree to the
    shared list: a second call returns the first table twice over. *)
Lemma generate_huffman_codes_twice (text : string) :
  text <> "" ->
  exists codes,
    codes <> [] /\
    generate_huffman_codes [] text = Ok (DefaultList, codes) /\
    generate_huffman_codes codes text = Ok (DefaultList, codes ++ codes).
Proof.
  intros Hne.
  destruct (generate_huffman_codes_spec [] text Hne)
    as [root [Hrun [Hgen [_ [_ Hsyms]]]]].
  exists (extract_huffman_codes root "" []). split; [|split; [exact Hgen|]].
  - intros Hnil. rewrite Hnil in Hsyms. simpl in Hsyms.
    apply Permutation_nil_l in Hsyms. symmetry in Hsyms.
    apply map_eq_nil in Hsyms.
    destruct text as [|c text]; [congruence|].
    assert (Hx : String c "" ∈ keys (Counter (chars (String c text)))).
    { apply keys_Counter_elem, list_elem_of_here. }
    rewrite Hsyms in Hx. inversion Hx.
  - unfold generate_huffman_codes. rewrite Hrun. cbn [bind extract_root].
    rewrite extract_app. reflexivity.
Qed.

(** C4. Two successive calls of [generate_huffman_codes] on "AB": the
    first returns the shared default list holding the two codes; the second
    returns the same list object, now holding four entries, the two of the
    first call carried over; read after the second call, the list returned
    by the first call holds four entries as well. *)
Theorem C4_second_call_carries_entries_over :
  generate_huffman_codes [] "AB" =
    Ok (DefaultList, [(SymStr "A", "0"); (SymStr "B", "1")]) /\
  generate_huffman_codes [(SymStr "A", "0"); (SymStr "B", "1")] "AB" =
    Ok (DefaultList, [(SymStr "A", "0"); (SymStr "B", "1");
                      (SymStr "A", "0"); (SymStr "B", "1")]) /\
  length (deref [(SymStr "A", "0"); (SymStr "B", "1");
                 (SymStr "A", "0"); (SymStr "B", "1")] DefaultList) = 4.
Proof. repeat split; vm_compute; reflexivity. Qed.

(** ** Ties in the priority collection *)

Lemma run_ops_heap_ok (ops : list HeapOp) :
  forall h h', heap_ok h -> run_ops ops h = Ok h' -> heap_ok h'.
Proof.
  induction ops as [|[item|] ops IH]; intros h h' Hok Hrun; cbn [run_ops] in Hrun.
  - injection Hrun as <-. exact Hok.
  - destruct (heappush_spec h item Hok) as [h1 [Hpush [Hok1 _]]].
    rewrite Hpush in Hrun. eauto.
  - destruct h as [|x h].
    + discriminate.
    + destruct (heappop_spec (x :: h) Hok) as [y [h1 [Hpop [Hok1 _]]]];
        [discriminate|].
      rewrite Hpop in Hrun. eauto.
Qed.

(** C6, counterexample. Four nodes of frequency 1 are inserted in the
    order A, B, C, D.  The first extraction returns A and the second
    returns C, although B has the same frequency, was inserted before C
    and is still in the collection. *)
Lemma C6_counterexample :
  exists h0 h1 h2,
    run_ops [Push (leaf 1 "A"); Push (leaf 1 "B");
             Push (leaf 1 "C"); Push (leaf 1 "D")] [] = Ok h0 /\
    heappop h0 = Ok (leaf 1 "A", h1) /\
    heappop h1 = Ok (leaf 1 "C", h2) /\
    freq (leaf 1 "B") = freq (leaf 1 "C") /\
    h2 = [leaf 1 "B"; leaf 1 "D"].
Proof.
  exists [leaf 1 "A"; leaf 1 "B"; leaf 1 "C"; leaf 1 "D"],
         [leaf 1 "C"; leaf 1 "B"; leaf 1 "D"],
         [leaf 1 "B"; leaf 1 "D"].
  repeat split; vm_compute; reflexivity.
Qed.

(** C6, as amended. Nodes are compared by frequency alone.  In every
    state the collection can reach through [heappush] and [heappop], an
    extraction returns a node whose frequency is least among the nodes
    held, and removes exactly that node. *)
Theorem C6_extraction_returns_least_frequency
    (ops : list HeapOp) (h h' : list Node) (x : Node) :
  run_ops ops [] = Ok h ->
  heappop h = Ok (x, h') ->
  h ≡ₚ x :: h' /\ forall y, y ∈ h -> (freq x <= freq y)%Z.
Proof.
  intros Hrun Hpop.
  pose proof (run_ops_heap_ok ops [] h heap_ok_nil Hrun) as Hok.
  destruct h as [|z h]; [discriminate|].
  destruct (heappop_spec (z :: h) Hok) as [x' [h'' [Hpop' [_ [Hperm Hmin]]]]];
    [discriminate|].
  rewrite Hpop in Hpop'. injection Hpop' as <- <-. auto.
Qed.

Lemma C6_witness :
  [leaf 1 "C"; leaf 1 "B"; leaf 1 "D"] ≡ₚ leaf 1 "C" :: [leaf 1 "B"; leaf 1 "D"] /\
  forall y, y ∈ [leaf 1 "C"; leaf 1 "B"; leaf 1 "D"] ->
            (freq (leaf 1 "C") <= freq y)%Z.
Proof.
  apply (C6_extraction_returns_least_frequency
           [Push (leaf 1 "A"); Push (leaf 1 "B"); Push (leaf 1 "C");
            Push (leaf 1 "D"); Pop]); vm_compute; reflexivity.
Defined.

(** ** Entropy *)

Lemma ln_2_pos : (0 < ln 2)%R.
Proof. rewrite <- ln_1. apply ln_increasing; lra. Qed.

Lemma log2_1 : log2 1 = 0%R.
Proof. unfold log2. rewrite ln_1. pose proof ln_2_pos. field. lra. Qed.

Lemma log2_half : log2 (1 / 2) = (-1)%R.
Proof.
  unfold log2. replace (1 / 2)%R with (/ 2)%R by lra.
  rewrite ln_Rinv by lra. pose proof ln_2_pos. field. lra.
Qed.

Lemma xlog2x_nonpos (p : R) : (0 < p <= 1)%R -> (p * log2 p <= 0)%R.
Proof.
  intros [Hp0 Hp1]. unfold log2.
  assert (Hln : (ln p <= 0)%R).
  { rewrite <- ln_1. destruct (Req_dec p 1) as [->|Hne]; [lra|].
    apply Rlt_le, ln_increasing; lra. }
  pose proof ln_2_pos as H2.
  assert (Hi : (0 < / ln 2)%R) by (apply Rinv_0_lt_compat, H2).
  assert (Hq : (ln p / ln 2 <= 0)%R) by (unfold Rdiv; nra).
  nra.
Qed.

Lemma py_div_ok (a n : Z) : n <> 0%Z -> py_div a n = Ok (IZR a / IZR n)%R.
Proof.
  intros Hn. unfold py_div. destruct (Z.eqb_spec n 0); [contradiction|reflexivity].
Qed.

(** With a positive denominator the loop ends without error, and every
    term it adds is at most 0. *)
Lemma entropy_loop_spec (counter : Counter_t) (n : Z) (ks : list string) :
  (0 < n)%Z ->
  (forall k, k ∈ ks -> (0 < counter_get counter k <= n)%Z) ->
  forall acc, exists e, entropy_loop counter n ks acc = Ok e /\ (e <= acc)%R.
Proof.
  intros Hn. induction ks as [|k ks IH]; intros Hks acc; cbn [entropy_loop].
  - exists acc. split; [reflexivity | lra].
  - rewrite py_div_ok by lia. cbn [bind].
    destruct (IH (fun k' Hk' => Hks k' (list_elem_of_further _ _ _ Hk'))
                (acc + IZR (counter_get counter k) / IZR n *
                       log2 (IZR (counter_get counter k) / IZR n))%R)
      as [e [He Hle]].
    exists e. split; [exact He|].
    destruct (Hks k (list_elem_of_here _ _)) as [Hc0 Hcn].
    assert (Hp : (0 < IZR (counter_get counter k) / IZR n <= 1)%R).
    { assert (0 < IZR n)%R by (apply IZR_lt; lia).
      assert (0 < IZR (counter_get counter k))%R by (apply IZR_lt; lia).
      assert (IZR (counter_get counter k) <= IZR n)%R by (apply IZR_le; lia).
      assert (0 < / IZR n)%R by (apply Rinv_0_lt_compat; assumption).
      assert (IZR n * / IZR n = 1)%R by (apply Rinv_r; lra).
      unfold Rdiv. split; nra. }
    pose proof (xlog2x_nonpos _ Hp). lra.
Qed.

Lemma pairs_of_length (text : string) :
  length (pairs_of text) = (String.length text + 1) / 2.
Proof. unfold pairs_of, range_step2. rewrite !length_map, length_seq. reflexivity. Qed.

Lemma string_length_pos (text : string) : text <> "" -> 0 < String.length text.
Proof. destruct text; [congruence | simpl; lia]. Qed.

Lemma first_order_entropy_spec (text : string) :
  text <> "" ->
  exists e, calculate_first_order_entropy text = Ok e /\ (0 <= e)%R.
Proof.
  intros Hne. unfold calculate_first_order_entropy.
  pose proof (string_length_pos text Hne) as Hlen.
  destruct (entropy_loop_spec (Counter (chars text)) (Z.of_nat (String.length text))
              (keys (Counter (chars text)))) with (acc := 0%R) as [e [-> He]].
  - lia.
  - intros k Hk. split; [apply counter_get_pos, Hk|].
    rewrite <- chars_length. apply counter_get_le.
  - cbn [bind]. eexists. split; [reflexivity | lra].
Qed.

Lemma second_order_entropy_spec (text : string) :
  text <> "" ->
  exists e, calculate_second_order_entropy text = Ok e /\ (0 <= e)%R.
Proof.
  intros Hne. unfold calculate_second_order_entropy.
  pose proof (string_length_pos text Hne) as Hlen.
  assert (Hpairs : 0 < length (pairs_of text)).
  { rewrite pairs_of_length.
    assert (1 <= (String.length text + 1) / 2); [|lia].
    apply Nat.div_le_lower_bound; lia. }
  destruct (entropy_loop_spec (Counter (pairs_of text))
              (Z.of_nat (length (pairs_of text)))
              (keys (Counter (pairs_of text)))) with (acc := 0%R) as [e [-> He]].
  - lia.
  - intros k Hk. split; [apply counter_get_pos, Hk | apply counter_get_le].
  - cbn [bind]. eexists. split; [reflexivity | lra].
Qed.

(** C10. For every non-empty text, [calculate_first_order_entropy] and
    [calculate_second_order_entropy] return a value, and it is not
    negative. *)
Theorem C10_entropies_nonnegative (text : string) :
  text <> "" ->
  exists h1 h2,
    calculate_first_order_entropy text = Ok h1 /\
    calculate_second_order_entropy text = Ok h2 /\
    (0 <= h1)%R /\ (0 <= h2)%R.
Proof.
  intros Hne.
  destruct (first_order_entropy_spec text Hne) as [h1 [H1 Hp1]].
  destruct (second_order_entropy_spec text Hne) as [h2 [H2 Hp2]].
  exists h1, h2. auto.
Qed.

Lemma C10_witness :
  exists h1 h2,
    calculate_first_order_entropy "AAAB" = Ok h1 /\
    calculate_second_order_entropy "AAAB" = Ok h2 /\
    (0 <= h1)%R /\ (0 <= h2)%R.
Proof. apply (C10_entropies_nonnegative "AAAB"). discriminate. Defined.

(** C3, counterexample. On the empty text [calculate_first_order_entropy]
    signals no error. *)
Lemma C3_counterexample :
  ~ exists e, calculate_first_order_entropy "" = Err e.
Proof. intros [e He]. vm_compute in He. discriminate. Qed.

(** C3, as amended. [calculate_first_order_entropy] signals no error on
    any text.  On the empty text the counter has no key, the loop body and
    its division never run, and the function returns 0. *)
Theorem C3_entropy_of_empty_text_is_zero :
  calculate_first_order_entropy "" = Ok 0%R /\
  forall text, exists e, calculate_first_order_entropy text = Ok e.
Proof.
  split.
  - unfold calculate_first_order_entropy. cbn. f_equal. lra.
  - intros text. destruct text as [|c text].
    + eexists. unfold calculate_first_order_entropy. cbn. reflexivity.
    + destruct (first_order_entropy_spec (String c text)) as [e [He _]];
        [discriminate | eauto].
Qed.

(** ** The pairs of the joint mode *)

Lemma string_ind2 (P : string -> Prop) :
  P "" -> (forall a, P (String a "")) ->
  (forall a b r, P r -> P (String a (String b r))) ->
  forall s, P s.
Proof.
  intros H0 H1 H2. fix IH 1. intros [|a [|b r]].
  - exact H0.
  - apply H1.
  - apply H2, IH.
Qed.

Lemma pairs_of_cons2 (a b : ascii) (r : string) :
  pairs_of (String a (String b r)) = String a (String b "") :: pairs_of r.
Proof.
  unfold pairs_of, range_step2. cbn [String.length].
  replace (S (S (String.length r)) + 1) with (String.length r + 1 + 1 * 2) by lia.
  rewrite Nat.div_add by lia. rewrite Nat.add_1_r.
  cbn [seq map]. rewrite <- seq_shift, !map_map. f_equal.
  - destruct r; reflexivity.
  - apply map_ext. intros k.
    replace (2 * S k) with (S (S (2 * k))) by lia. reflexivity.
Qed.

Lemma joint_pairs_cons2 (a b : ascii) (r : string) :
  joint_pairs (String a (String b r)) =
  let* ps := joint_pairs r in Ok (String a (String b "") :: ps).
Proof.
  unfold joint_pairs. rewrite pairs_of_cons2. cbn [String.length].
  replace (S (S (String.length r))) with (String.length r + 1 * 2) by lia.
  rewrite Nat.Div0.mod_add.
  destruct (String.length r mod 2 =? 1) eqn:E; [|reflexivity].
  destruct r as [|c [|d r]].
  - discriminate.
  - reflexivity.
  - rewrite pairs_of_cons2. reflexivity.
Qed.

(** The joint coder cuts every text into pairs of two characters, in
    order, after appending "_" to a text of odd length. *)
Lemma joint_pairs_partition (text : string) :
  exists pairs,
    joint_pairs text = Ok pairs /\
    Forall (fun p => String.length p = 2) pairs /\
    join pairs =
      if String.length text mod 2 =? 1 then text +:+ "_" else text.
Proof.
  induction text as [|a|a b r [pairs [Hrun [Hlen Hjoin]]]] using string_ind2.
  - exists []. repeat split. constructor.
  - exists [String a "_"]. repeat split. constructor; [reflexivity | constructor].
  - exists (String a (String b "") :: pairs).
    rewrite joint_pairs_cons2, Hrun. split; [reflexivity|]. split.
    + constructor; [reflexivity | exact Hlen].
    + unfold join in *. cbn [fold_right String.length]. rewrite Hjoin.
      replace (S (S (String.length r))) with (String.length r + 1 * 2) by lia.
      rewrite Nat.Div0.mod_add.
      destruct (String.length r mod 2 =? 1); reflexivity.
Qed.

(** [calculate_second_order_entropy] cuts the text itself: on a text of
    odd length its last pair is the last character alone. *)
Lemma pairs_of_partition (text : string) :
  join (pairs_of text) = text /\
  (String.length text mod 2 = 1 ->
   exists c, List.last (pairs_of text) "" = String c "").
Proof.
  induction text as [|a|a b r [Hjoin Hlast]] using string_ind2.
  - split; [reflexivity | discriminate].
  - split; [reflexivity|]. intros _. exists a. reflexivity.
  - rewrite pairs_of_cons2. split.
    + unfold join in *. cbn [fold_right]. rewrite Hjoin. reflexivity.
    + cbn [String.length].
      replace (S (S (String.length r))) with (String.length r + 1 * 2) by lia.
      rewrite Nat.Div0.mod_add. intros Hodd.
      destruct (Hlast Hodd) as [c Hc]. exists c.
      destruct (pairs_of r) as [|q qs] eqn:E.
      * discriminate.
      * exact Hc.
Qed.

(** ** Evaluation on concrete texts *)

(** Runs the list, string and integer part of a call and leaves the real
    arithmetic to be settled. *)
Lemma log2_self (a : R) : (a <> 0)%R -> log2 (a / a) = 0%R.
Proof. intros Ha. replace (a / a)%R with 1%R by (field; exact Ha). apply log2_1. Qed.

Ltac run_py :=
  cbv - [Rplus Rmult Ropp Rdiv Rinv Rminus IZR log2];
  rewrite ?log2_half, ?log2_1, ?log2_self by lra.

(** C5. [calculate_second_order_entropy] does not pad: on "ABC" its
    pairs are "AB" and "C", where the joint coder has "AB" and "C_"; the
    value 0.5 is the same either way.  On "C_C" the difference shows: the
    function counts "C_" and "C" as two pairs and returns 0.5, where the
    padded pairs "C_", "C_" of the specification give 0. *)
Theorem C5_second_order_entropy_does_not_pad :
  pairs_of "ABC" = ["AB"; "C"] /\
  joint_pairs "ABC" = Ok ["AB"; "C_"] /\
  calculate_second_order_entropy "ABC" = Ok (1 / 2)%R /\
  pairs_of "C_C" = ["C_"; "C"] /\
  joint_pairs "C_C" = Ok ["C_"; "C_"] /\
  calculate_second_order_entropy "C_C" = Ok (1 / 2)%R /\
  spec_second_order_entropy "C_C" = Ok 0%R.
Proof.
  repeat split; try reflexivity; run_py; f_equal; lra.
Qed.

(** ** The first call of a process *)

Lemma avg_loop_spec (counter : Counter_t) (n : Z) (codes : CodeList) :
  n <> 0%Z ->
  forall acc,
    avg_loop counter n codes acc = Ok (acc + weighted_length counter n codes)%R.
Proof.
  intros Hn. induction codes as [|[sym code] codes IH]; intros acc;
    cbn [avg_loop weighted_length].
  - f_equal. lra.
  - rewrite py_div_ok by exact Hn. cbn [bind]. rewrite IH. f_equal. lra.
Qed.

Lemma chars_repeat_char (c : ascii) (n : nat) :
  chars (repeat_char c n) = repeat (String c "") n.
Proof.
  unfold chars. induction n as [|n IH]; simpl; [reflexivity|].
  rewrite IH. reflexivity.
Qed.

Lemma repeat_char_length (c : ascii) (n : nat) :
  String.length (repeat_char c n) = n.
Proof. induction n as [|n IH]; simpl; [reflexivity | rewrite IH; reflexivity]. Qed.

Lemma Counter_repeat (k : string) (n : nat) :
  Counter (repeat k (S n)) = [(k, Z.of_nat (S n))].
Proof.
  unfold Counter. simpl repeat. cbn [fold_left counter_incr].
  assert (H : forall m v, fold_left (fun c x => counter_incr x c) (repeat k m) [(k, v)]
                          = [(k, (v + Z.of_nat m)%Z)]).
  { induction m as [|m IH]; intros v; cbn [repeat fold_left counter_incr].
    - rewrite Z.add_0_r. reflexivity.
    - rewrite String.eqb_refl, IH. do 2 f_equal. lia. }
  rewrite H. do 2 f_equal. lia.
Qed.

(** On a text made of one repeated character, from the empty shared
    list: the merge loop leaves the single leaf, the table has the one
    entry with the empty code, and average length and entropy are 0. *)
Lemma single_symbol_first_call (c : ascii) (n : nat) :
  build_tree sym_add (chars (repeat_char c (S n))) =
    Ok [leaf (Z.of_nat (S n)) (String c "")] /\
  generate_huffman_codes [] (repeat_char c (S n)) =
    Ok (DefaultList, [(SymStr (String c ""), "")]) /\
  calculate_average_codeword_length [] (repeat_char c (S n)) =
    Ok (0%R, [(SymStr (String c ""), "")]) /\
  calculate_first_order_entropy (repeat_char c (S n)) = Ok 0%R.
Proof.
  assert (Htree : build_tree sym_add (chars (repeat_char c (S n))) =
                  Ok [leaf (Z.of_nat (S n)) (String c "")]).
  { unfold build_tree. rewrite chars_repeat_char, Counter_repeat.
    cbn [keys map fst push_leaves counter_get]. rewrite String.eqb_refl.
    reflexivity. }
  assert (Hgen : generate_huffman_codes [] (repeat_char c (S n)) =
                 Ok (DefaultList, [(SymStr (String c ""), "")])).
  { unfold generate_huffman_codes. rewrite Htree. reflexivity. }
  assert (Hn : IZR (Z.of_nat (S n)) <> 0%R).
  { apply not_0_IZR. lia. }
  split; [exact Htree|]. split; [exact Hgen|]. split.
  - unfold calculate_average_codeword_length. rewrite Hgen. cbn [bind deref].
    rewrite avg_loop_spec by (rewrite repeat_char_length; lia).
    cbn [bind weighted_length String.length].
    change (Z.of_nat 0) with 0%Z. do 2 f_equal. lra.
  - unfold calculate_first_order_entropy.
    rewrite chars_repeat_char, Counter_repeat, repeat_char_length.
    cbn [keys map fst entropy_loop counter_get]. rewrite String.eqb_refl.
    rewrite py_div_ok by lia. cbn [bind]. rewrite log2_self by exact Hn.
    f_equal. lra.
Qed.

Lemma joint_pairs_nonempty (text : string) :
  text <> "" -> exists pairs, joint_pairs text = Ok pairs /\ pairs <> [].
Proof.
  intros Hne. unfold joint_pairs.
  assert (Hp : pairs_of text <> []).
  { intros Hnil. pose proof (pairs_of_length text) as Hlen.
    rewrite Hnil in Hlen. simpl length in Hlen.
    pose proof (string_length_pos text Hne).
    assert (1 <= (String.length text + 1) / 2)
      by (apply Nat.div_le_lower_bound; lia).
    lia. }
  destruct (String.length text mod 2 =? 1).
  - unfold pad_last. destruct (pairs_of text) as [|p ps] eqn:E; [congruence|].
    eexists. split; [reflexivity|]. intros Hnil. apply app_eq_nil in Hnil as [_ ?].
    discriminate.
  - exists (pairs_of text). auto.
Qed.

(** The joint average on a first call: one entry per distinct pair, and
    the sum of pair probability times code length over them, not halved. *)
Lemma joint_average_first_call (text : string) :
  text <> "" ->
  exists pairs codes,
    joint_pairs text = Ok pairs /\
    generate_joint_huffman_codes [] text = Ok (DefaultList, codes) /\
    map fst codes ≡ₚ map SymStr (keys (Counter pairs)) /\
    calculate_joint_average_codeword_length [] text =
      Ok (weighted_length (Counter pairs) (Z.of_nat (length pairs)) codes, codes).
Proof.
  intros Hne. destruct (joint_pairs_nonempty text Hne) as [pairs [Hpairs Hp]].
  destruct (build_tree_root mk_tuple (fun _ => True) pairs)
    as [root [Hrun [_ [_ Hleaves]]]]; auto using mk_tuple_ok.
  assert (Hgen : generate_joint_huffman_codes [] text =
                 Ok (DefaultList, extract_huffman_codes root "" [])).
  { unfold generate_joint_huffman_codes. rewrite Hpairs. cbn [bind].
    rewrite Hrun. reflexivity. }
  exists pairs, (extract_huffman_codes root "" []).
  split; [exact Hpairs|]. split; [exact Hgen|]. split.
  - rewrite extract_symbols. exact Hleaves.
  - unfold calculate_joint_average_codeword_length.
    rewrite Hpairs. cbn [bind]. rewrite Hgen. cbn [bind deref].
    rewrite avg_loop_spec.
    + cbn [bind]. do 2 f_equal. lra.
    + destruct pairs; [congruence | simpl; lia].
Qed.

(** C1. On "AB" the order-0 entropy is 1.  The first call of
    [calculate_average_codeword_length] returns 1 and leaves the two codes
    in the shared list; the second call sums over the four entries it then
    finds and returns 2, which is not below entropy + 1. *)
Theorem C1_repeated_call_exceeds_entropy_plus_one :
  calculate_first_order_entropy "AB" = Ok 1%R /\
  calculate_average_codeword_length [] "AB" =
    Ok (1%R, [(SymStr "A", "0"); (SymStr "B", "1")]) /\
  calculate_average_codeword_length [(SymStr "A", "0"); (SymStr "B", "1")] "AB" =
    Ok (2%R, [(SymStr "A", "0"); (SymStr "B", "1");
              (SymStr "A", "0"); (SymStr "B", "1")]) /\
  ~ (2 < 1 + 1)%R.
Proof.
  repeat split; try lra; run_py; repeat f_equal; lra.
Qed.

(** C7. After one call on "AB", [generate_huffman_codes] on "AAAA"
    returns three entries, the two of the earlier call and the empty code
    of "A", and [calculate_average_codeword_length] returns 1: the stale
    entry for "A" has a code of length 1.  The merge loop does not run
    (the heap after the loop is the single leaf) and the entropy is 0. *)
Theorem C7_single_symbol_after_earlier_call :
  generate_huffman_codes [] "AB" =
    Ok (DefaultList, [(SymStr "A", "0"); (SymStr "B", "1")]) /\
  build_tree sym_add (chars "AAAA") = Ok [leaf 4 "A"] /\
  generate_huffman_codes [(SymStr "A", "0"); (SymStr "B", "1")] "AAAA" =
    Ok (DefaultList, [(SymStr "A", "0"); (SymStr "B", "1"); (SymStr "A", "")]) /\
  calculate_average_codeword_length [(SymStr "A", "0"); (SymStr "B", "1")] "AAAA" =
    Ok (1%R, [(SymStr "A", "0"); (SymStr "B", "1"); (SymStr "A", "")]) /\
  calculate_first_order_entropy "AAAA" = Ok 0%R.
Proof.
  repeat split; try reflexivity; run_py; repeat f_equal; lra.
Qed.

(** C8. On "ABCD" the pairs "AB" and "CD" have probability 0.5 and codes
    of length 1.  The first call of [calculate_joint_average_codeword_length]
    returns their weighted sum, 1 bit per pair, not halved; the second call
    finds each pair twice in the shared list and returns 2. *)
Theorem C8_repeated_joint_call_doubles :
  calculate_joint_average_codeword_length [] "ABCD" =
    Ok (1%R, [(SymStr "AB", "0"); (SymStr "CD", "1")]) /\
  calculate_joint_average_codeword_length
    [(SymStr "AB", "0"); (SymStr "CD", "1")] "ABCD" =
    Ok (2%R, [(SymStr "AB", "0"); (SymStr "CD", "1");
              (SymStr "AB", "0"); (SymStr "CD", "1")]).
Proof.
  repeat split; run_py; repeat f_equal; lra.
Qed.

(** * Further properties of the module *)

(** ** Code extraction *)

(** X1. [extract_huffman_codes] only appends: the entries already in the
    list stay in place, and one entry is added for every node without
    children, in left-to-right order; a node with a single child adds
    nothing for itself. *)
Theorem X1_extract_only_appends (node : Node) (code : string) (store : CodeList) :
  extract_huffman_codes node code store =
    store ++ extract_huffman_codes node code [] /\
  map fst (extract_huffman_codes node code []) = leaf_symbols node /\
  length (extract_huffman_codes node code store) =
    length store + length (leaf_symbols node).
Proof.
  split; [apply extract_app|]. split; [apply extract_symbols|].
  rewrite extract_app, length_app, <- (extract_symbols node code), length_map.
  reflexivity.
Qed.

(** X2. From any state of the shared list, [generate_huffman_codes]
    leaves the list extended by exactly the table a first call returns.
    On the empty text it returns a new empty list and leaves the shared
    list alone; on any other text it returns the shared list itself. *)
Theorem X2_generate_appends_first_call_table (store : CodeList) (text : string) :
  exists ref codes,
    generate_huffman_codes [] text = Ok (ref, codes) /\
    generate_huffman_codes store text = Ok (ref, store ++ codes) /\
    (text = "" -> ref = FreshList [] /\ codes = []) /\
    (text <> "" -> ref = DefaultList /\ codes <> []).
Proof.
  destruct text as [|c text].
  - exists (FreshList []), []. rewrite app_nil_r.
    repeat split; try reflexivity; congruence.
  - destruct (generate_huffman_codes_spec store (String c text)) as
      [root [Hrun [Hgen [_ [_ Hsyms]]]]]; [discriminate|].
    exists DefaultList, (extract_huffman_codes root "" []).
    split; [|split; [exact Hgen|split; [discriminate|]]].
    + unfold generate_huffman_codes. rewrite Hrun. cbn [bind extract_root].
      reflexivity.
    + intros _. split; [reflexivity|]. intros Hnil.
      rewrite Hnil in Hsyms. simpl in Hsyms.
      apply Permutation_nil_l in Hsyms. symmetry in Hsyms.
      apply map_eq_nil in Hsyms.
      assert (Hx : String c "" ∈ keys (Counter (chars (String c text)))).
      { apply keys_Counter_elem, list_elem_of_here. }
      rewrite Hsyms in Hx. inversion Hx.
Qed.

(** ** The joint coder *)

(** X3. On a first call, for every non-empty text the table of
    [generate_joint_huffman_codes] has exactly one entry per distinct pair
    of the padded partition, and it is prefix-free. *)
Theorem X3_joint_table_prefix_free (text : string) :
  text <> "" ->
  exists pairs codes,
    joint_pairs text = Ok pairs /\
    generate_joint_huffman_codes [] text = Ok (DefaultList, codes) /\
    NoDup (map fst codes) /\
    (forall s, s ∈ map fst codes <-> exists p, s = SymStr p /\ p ∈ pairs) /\
    (forall s1 c1 s2 c2, (s1, c1) ∈ codes -> (s2, c2) ∈ codes -> s1 <> s2 ->
       String.prefix c1 c2 = false).
Proof.
  intros Hne. destruct (joint_pairs_nonempty text Hne) as [pairs [Hpairs Hp]].
  destruct (build_tree_root mk_tuple (fun _ => True) pairs)
    as [root [Hrun [Hinv [_ Hleaves]]]]; auto using mk_tuple_ok.
  exists pairs, (extract_huffman_codes root "" []).
  split; [exact Hpairs|]. split; [|split; [|split]].
  - unfold generate_joint_huffman_codes. rewrite Hpairs. cbn [bind].
    rewrite Hrun. reflexivity.
  - rewrite extract_symbols, Hleaves.
    apply (NoDup_fmap_2 SymStr), keys_Counter_NoDup.
  - intros s. rewrite extract_symbols, Hleaves, list_elem_of_fmap.
    split; intros [k [-> Hk]]; exists k; split; auto; apply keys_Counter_elem, Hk.
  - intros s1 c1 s2 c2 H1 H2 Hs.
    pose proof (extract_prefix_free _ root Hinv "") as Hfree.
    apply list_elem_of_In in H1, H2.
    destruct (ForallOrdPairs_In Hfree _ _ H1 H2) as [Heq|[[Ha Hb]|[Ha Hb]]].
    + congruence.
    + exact Ha.
    + exact Hb.
Qed.

Lemma X3_witness :
  exists pairs codes,
    joint_pairs "ABC" = Ok pairs /\
    generate_joint_huffman_codes [] "ABC" = Ok (DefaultList, codes) /\
    NoDup (map fst codes) /\
    (forall s, s ∈ map fst codes <-> exists p, s = SymStr p /\ p ∈ pairs) /\
    (forall s1 c1 s2 c2, (s1, c1) ∈ codes -> (s2, c2) ∈ codes -> s1 <> s2 ->
       String.prefix c1 c2 = false).
Proof. apply (X3_joint_table_prefix_free "ABC"). discriminate. Defined.

(** X4. The joint coder cuts every text into pairs of exactly two
    characters, in order: their concatenation is the text, followed by
    "_" when its length is odd, and there are [ceil(len(text) / 2)] of
    them. *)
Theorem X4_joint_pairs_partition (text : string) :
  exists pairs,
    joint_pairs text = Ok pairs /\
    Forall (fun p => String.length p = 2) pairs /\
    length pairs = (String.length text + 1) / 2 /\
    join pairs =
      if String.length text mod 2 =? 1 then text +:+ "_" else text.
Proof.
  destruct (joint_pairs_partition text) as [pairs [Hrun [Hlen Hjoin]]].
  exists pairs. split; [exact Hrun|]. split; [exact Hlen|]. split; [|exact Hjoin].
  unfold joint_pairs in Hrun. pose proof (pairs_of_length text) as Hn.
  destruct (String.length text mod 2 =? 1).
  - unfold pad_last in Hrun. destruct (pairs_of text) as [|q qs] eqn:E;
      [discriminate|].
    injection Hrun as <-. rewrite <- Hn, length_app.
    assert (Hrl : length (removelast (q :: qs)) = length qs).
    { clear. revert q. induction qs as [|x qs IH]; intros q; [reflexivity|].
      change (removelast (q :: x :: qs)) with (q :: removelast (x :: qs)).
      cbn [length]. rewrite IH. reflexivity. }
    change (length (removelast (q :: qs)) +
            length [List.last (q :: qs) "" +:+ "_"] = length (q :: qs)).
    rewrite Hrl. simpl. lia.
  - injection Hrun as <-. exact Hn.
Qed.

(** X5. The pairs [calculate_second_order_entropy] counts are the text
    cut every two characters, with nothing added: their concatenation is
    the text, there are [ceil(len(text) / 2)] of them, and for a text of
    odd length the last one is a single character. *)
Theorem X5_entropy_pairs_partition (text : string) :
  join (pairs_of text) = text /\
  length (pairs_of text) = (String.length text + 1) / 2 /\
  (String.length text mod 2 = 1 ->
   exists c, List.last (pairs_of text) "" = String c "").
Proof.
  destruct (pairs_of_partition text) as [Hjoin Hlast].
  split; [exact Hjoin|]. split; [apply pairs_of_length | exact Hlast].
Qed.

Lemma X5_witness :
  join (pairs_of "ABC") = "ABC" /\
  length (pairs_of "ABC") = (String.length "ABC" + 1) / 2 /\
  exists c, List.last (pairs_of "ABC") "" = String c "".
Proof.
  destruct (X5_entropy_pairs_partition "ABC") as [H1 [H2 H3]].
  split; [exact H1|]. split; [exact H2|]. apply H3. reflexivity.
Defined.

(** ** Frequencies in the tree *)

Lemma Zsum_app (l1 l2 : list Z) : Zsum (l1 ++ l2) = (Zsum l1 + Zsum l2)%Z.
Proof. induction l1 as [|x l1 IH]; simpl; [reflexivity | rewrite IH; lia]. Qed.

Lemma Zsum_perm (l1 l2 : list Z) : l1 ≡ₚ l2 -> Zsum l1 = Zsum l2.
Proof.
  induction 1 as [|x l l' _ IH|x y l|l l' l'' _ IH1 _ IH2]; simpl; lia.
Qed.

(** The frequency of a tree of the merge loop is the sum of the counts
    of its leaves. *)
Lemma node_inv_freq (counter : Counter_t) (n : Node) :
  node_inv counter n ->
  freq n = Zsum (map (counter_get_sym counter) (leaf_symbols n)).
Proof.
  induction n as [f s l r h IHl IHr] using Node_induction. intros Hinv.
  destruct l as [ln|], r as [rn|]; cbn [node_inv leaf_symbols freq] in *;
    try contradiction.
  - destruct Hinv as [-> [_ [_ [Hl Hr]]]].
    rewrite map_app, Zsum_app, <- IHl, <- IHr by assumption. reflexivity.
  - destruct Hinv as [k [-> [_ ->]]]. simpl. lia.
Qed.

Lemma counter_incr_total (k : string) (c : Counter_t) :
  Zsum (map snd (counter_incr k c)) = (Zsum (map snd c) + 1)%Z.
Proof.
  induction c as [|[k0 v] c IH]; simpl; [reflexivity|].
  destruct (String.eqb k k0); simpl; [lia | rewrite IH; lia].
Qed.

Lemma Counter_total (items : list string) :
  Zsum (map snd (Counter items)) = Z.of_nat (length items).
Proof.
  induction items as [|x items IH] using rev_ind; [reflexivity|].
  rewrite Counter_snoc, counter_incr_total, IH, length_app. simpl. lia.
Qed.

Lemma Zsum_cons (x : Z) (l : list Z) : Zsum (x :: l) = (x + Zsum l)%Z.
Proof. reflexivity. Qed.

Lemma counter_get_keys_total (c : Counter_t) :
  NoDup (keys c) -> Zsum (map (counter_get c) (keys c)) = Zsum (map snd c).
Proof.
  induction c as [|[k0 v] c IH]; intros Hnd; [reflexivity|].
  change (keys ((k0, v) :: c)) with (k0 :: keys c) in *.
  apply NoDup_cons in Hnd as [Hk0 Hnd].
  cbn [map snd]. rewrite !Zsum_cons, <- (IH Hnd).
  cbn [counter_get]. rewrite String.eqb_refl. f_equal. f_equal.
  apply map_ext_in. intros k Hk.
  destruct (String.eqb_spec k k0) as [->|_]; [|reflexivity].
  exfalso. apply Hk0, list_elem_of_In, Hk.
Qed.

(** The counts of a counter add up to the number of items counted. *)
Lemma Counter_counts_total (items : list string) :
  Zsum (map (counter_get (Counter items)) (keys (Counter items))) =
  Z.of_nat (length items).
Proof.
  rewrite counter_get_keys_total by apply keys_Counter_NoDup.
  apply Counter_total.
Qed.

Lemma build_tree_root_freq (mk_symbol : PySym -> PySym -> Res PySym)
    (Psym : PySym -> Prop) (items : list string) :
  (forall k, Psym (SymStr k)) ->
  (forall a b, Psym a -> Psym b -> exists s, mk_symbol a b = Ok s /\ Psym s) ->
  items <> [] ->
  exists root, build_tree mk_symbol items = Ok [root] /\
               freq root = Z.of_nat (length items).
Proof.
  intros Hstr Hmk Hne.
  destruct (build_tree_root mk_symbol Psym items Hstr Hmk Hne)
    as [root [Hrun [Hinv [_ Hleaves]]]].
  exists root. split; [exact Hrun|].
  rewrite (node_inv_freq _ _ Hinv).
  rewrite (Zsum_perm _ _ (fmap_Permutation _ _ _ Hleaves)).
  rewrite <- Counter_counts_total. f_equal.
  rewrite <- list_fmap_compose. reflexivity.
Qed.

(** X6. The root of the tree carries the size of the input: for every
    non-empty text the merge loop of [generate_huffman_codes] ends with a
    single root whose frequency is [len(text)], and that of
    [generate_joint_huffman_codes] with a single root whose frequency is
    the number of pairs. *)
Theorem X6_root_frequency_is_input_size (text : string) :
  text <> "" ->
  (exists root, build_tree sym_add (chars text) = Ok [root] /\
                freq root = Z.of_nat (String.length text)) /\
  (exists pairs root,
     joint_pairs text = Ok pairs /\
     build_tree mk_tuple pairs = Ok [root] /\
     freq root = Z.of_nat (length pairs)).
Proof.
  intros Hne. split.
  - destruct (build_tree_root_freq sym_add is_str (chars text))
      as [root [Hrun Hfreq]].
    + intros k. exact I.
    + apply sym_add_ok.
    + apply chars_nonempty, Hne.
    + exists root. rewrite <- chars_length. auto.
  - destruct (joint_pairs_nonempty text Hne) as [pairs [Hpairs Hp]].
    destruct (build_tree_root_freq mk_tuple (fun _ => True) pairs)
      as [root [Hrun Hfreq]]; auto using mk_tuple_ok.
    exists pairs, root. auto.
Qed.

Lemma X6_witness :
  (exists root, build_tree sym_add (chars "AAAB") = Ok [root] /\
                freq root = Z.of_nat (String.length "AAAB")) /\
  (exists pairs root,
     joint_pairs "AAAB" = Ok pairs /\
     build_tree mk_tuple pairs = Ok [root] /\
     freq root = Z.of_nat (length pairs)).
Proof. apply (X6_root_frequency_is_input_size "AAAB"). discriminate. Defined.

(** X7. The greedy choice of the merge loop: in every state the heap can
    reach that holds at least two nodes, the two successive extractions
    return [left] and [right] with [left.freq <= right.freq], and no node
    left in the heap has a smaller frequency than [right]. *)
Theorem X7_merge_takes_two_least (ops : list HeapOp) (h : list Node) :
  run_ops ops [] = Ok h -> 2 <= length h ->
  exists l h1 r h2,
    heappop h = Ok (l, h1) /\ heappop h1 = Ok (r, h2) /\
    h ≡ₚ l :: r :: h2 /\
    (freq l <= freq r)%Z /\
    forall y, y ∈ h2 -> (freq r <= freq y)%Z.
Proof.
  intros Hrun Hlen.
  pose proof (run_ops_heap_ok ops [] h heap_ok_nil Hrun) as Hok.
  destruct (heappop_spec h Hok) as [l [h1 [Hpop1 [Hok1 [Hperm1 Hmin1]]]]].
  { intros ->. simpl in Hlen. lia. }
  assert (Hlen1 : length h = S (length h1))
    by (rewrite (Permutation_length Hperm1); reflexivity).
  destruct (heappop_spec h1 Hok1) as [r [h2 [Hpop2 [_ [Hperm2 Hmin2]]]]].
  { intros ->. simpl in Hlen1. lia. }
  exists l, h1, r, h2. split; [exact Hpop1|]. split; [exact Hpop2|].
  split; [rewrite Hperm1, Hperm2; reflexivity|]. split.
  - apply Hmin1. rewrite Hperm1, Hperm2.
    apply list_elem_of_further, list_elem_of_here.
  - intros y Hy. apply Hmin2. rewrite Hperm2. apply list_elem_of_further, Hy.
Qed.

Lemma X7_witness :
  exists l h1 r h2,
    heappop [leaf 1 "B"; leaf 3 "A"; leaf 2 "C"] = Ok (l, h1) /\
    heappop h1 = Ok (r, h2) /\
    [leaf 1 "B"; leaf 3 "A"; leaf 2 "C"] ≡ₚ l :: r :: h2 /\
    (freq l <= freq r)%Z /\
    forall y, y ∈ h2 -> (freq r <= freq y)%Z.
Proof.
  apply (X7_merge_takes_two_least
           [Push (leaf 3 "A"); Push (leaf 1 "B"); Push (leaf 2 "C")]).
  - vm_compute. reflexivity.
  - simpl. lia.
Defined.

(** ** Calls in any state of the shared list *)

Lemma generate_joint_huffman_codes_spec (store : CodeList) (text : string) :
  text <> "" ->
  exists pairs root,
    joint_pairs text = Ok pairs /\ pairs <> [] /\
    build_tree mk_tuple pairs = Ok [root] /\
    generate_joint_huffman_codes store text =
      Ok (DefaultList, store ++ extract_huffman_codes root "" []) /\
    node_inv (Counter pairs) root /\ huff root = HuffEmpty /\
    map fst (extract_huffman_codes root "" []) ≡ₚ
      map SymStr (keys (Counter pairs)).
Proof.
  intros Hne. destruct (joint_pairs_nonempty text Hne) as [pairs [Hpairs Hp]].
  destruct (build_tree_root mk_tuple (fun _ => True) pairs)
    as [root [Hrun [Hinv [Hh Hleaves]]]]; auto using mk_tuple_ok.
  exists pairs, root. split; [exact Hpairs|]. split; [exact Hp|].
  split; [exact Hrun|]. split; [|split; [exact Hinv|split; [exact Hh|]]].
  - unfold generate_joint_huffman_codes. rewrite Hpairs. cbn [bind].
    rewrite Hrun. cbn [bind extract_root]. rewrite extract_app. reflexivity.
  - rewrite extract_symbols. exact Hleaves.
Qed.

Lemma weighted_length_app (counter : Counter_t) (n : Z) (c1 c2 : CodeList) :
  weighted_length counter n (c1 ++ c2) =
  (weighted_length counter n c1 + weighted_length counter n c2)%R.
Proof.
  induction c1 as [|[s c] c1 IH]; cbn [app weighted_length]; [lra|].
  rewrite IH. lra.
Qed.

Lemma counter_get_sym_nonneg (items : list string) (s : PySym) :
  (0 <= counter_get_sym (Counter items) s)%Z.
Proof.
  destruct s as [k|l]; cbn [counter_get_sym]; [|lia].
  rewrite counter_get_Counter. lia.
Qed.

Lemma weighted_length_nonneg (items : list string) (n : Z) (codes : CodeList) :
  (0 < n)%Z -> (0 <= weighted_length (Counter items) n codes)%R.
Proof.
  intros Hn. induction codes as [|[s c] codes IH]; cbn [weighted_length]; [lra|].
  assert (0 <= IZR (counter_get_sym (Counter items) s))%R
    by (apply IZR_le, counter_get_sym_nonneg).
  assert (0 < / IZR n)%R by (apply Rinv_0_lt_compat, IZR_lt, Hn).
  assert (0 <= IZR (Z.of_nat (String.length c)))%R by (apply IZR_le; lia).
  assert (0 <= IZR (counter_get_sym (Counter items) s) / IZR n)%R
    by (unfold Rdiv; apply Rmult_le_pos; lra).
  assert (0 <= IZR (counter_get_sym (Counter items) s) / IZR n *
               IZR (Z.of_nat (String.length c)))%R
    by (apply Rmult_le_pos; assumption).
  lra.
Qed.

Lemma weighted_length_zero (counter : Counter_t) (n : Z) (codes : CodeList) :
  (forall e, e ∈ codes -> counter_get_sym counter (fst e) = 0%Z) ->
  weighted_length counter n codes = 0%R.
Proof.
  induction codes as [|[s c] codes IH]; intros Hz; cbn [weighted_length];
    [reflexivity|].
  pose proof (Hz (s, c) (list_elem_of_here _ _)) as Hs. cbn [fst] in Hs.
  rewrite Hs.
  rewrite IH by (intros e He; apply Hz, list_elem_of_further, He).
  unfold Rdiv. rewrite !Rmult_0_l. lra.
Qed.

(** [calculate_average_codeword_length] in any state: the sum runs over
    the stale entries and the new ones. *)
Lemma average_in_any_state (store : CodeList) (text : string) :
  text <> "" ->
  exists codes,
    generate_huffman_codes [] text = Ok (DefaultList, codes) /\
    calculate_average_codeword_length store text =
      Ok ((weighted_length (Counter (chars text))
             (Z.of_nat (String.length text)) store +
           weighted_length (Counter (chars text))
             (Z.of_nat (String.length text)) codes)%R,
          store ++ codes).
Proof.
  intros Hne.
  destruct (generate_huffman_codes_spec store text Hne) as [root [Hrun [Hgen _]]].
  exists (extract_huffman_codes root "" []). split.
  - unfold generate_huffman_codes. rewrite Hrun. reflexivity.
  - unfold calculate_average_codeword_length. rewrite Hgen. cbn [bind deref].
    pose proof (string_length_pos text Hne).
    rewrite avg_loop_spec by lia. cbn [bind].
    rewrite weighted_length_app. do 2 f_equal. lra.
Qed.

Lemma joint_average_in_any_state (store : CodeList) (text : string) :
  text <> "" ->
  exists pairs codes,
    joint_pairs text = Ok pairs /\ pairs <> [] /\
    generate_joint_huffman_codes [] text = Ok (DefaultList, codes) /\
    map fst codes ≡ₚ map SymStr (keys (Counter pairs)) /\
    calculate_joint_average_codeword_length store text =
      Ok ((weighted_length (Counter pairs) (Z.of_nat (length pairs)) store +
           weighted_length (Counter pairs) (Z.of_nat (length pairs)) codes)%R,
          store ++ codes).
Proof.
  intros Hne.
  destruct (generate_joint_huffman_codes_spec store text Hne)
    as [pairs [root [Hpairs [Hp [Hrun [Hgen [_ [_ Hsyms]]]]]]]].
  exists pairs, (extract_huffman_codes root "" []).
  split; [exact Hpairs|]. split; [exact Hp|]. split; [|split; [exact Hsyms|]].
  - unfold generate_joint_huffman_codes. rewrite Hpairs. cbn [bind].
    rewrite Hrun. reflexivity.
  - unfold calculate_joint_average_codeword_length.
    rewrite Hpairs. cbn [bind]. rewrite Hgen. cbn [bind deref].
    rewrite avg_loop_spec by (destruct pairs; [congruence | simpl; lia]).
    cbn [bind]. rewrite weighted_length_app. do 2 f_equal. lra.
Qed.

(** X8. Stale entries only add.  In any state of the shared list
    [calculate_average_codeword_length] returns the value of a first call
    plus the weighted lengths of the entries already in the list, so never
    less than a first call; the list grows by the table of a first call.
    On the empty text it returns 0 and leaves the list alone. *)
Theorem X8_average_never_below_first_call (store : CodeList) (text : string) :
  exists v0 codes v,
    calculate_average_codeword_length [] text = Ok (v0, codes) /\
    calculate_average_codeword_length store text = Ok (v, store ++ codes) /\
    v = (weighted_length (Counter (chars text))
           (Z.of_nat (String.length text)) store + v0)%R /\
    (v0 <= v)%R /\
    (text = "" -> v = 0%R /\ codes = []).
Proof.
  destruct text as [|c text].
  - exists 0%R, [], 0%R. rewrite app_nil_r.
    split; [reflexivity|]. split; [reflexivity|].
    split; [|split; [lra | auto]].
    rewrite weighted_length_zero; [lra|].
    intros e _. destruct (fst e); reflexivity.
  - assert (Hne : String c text <> "") by discriminate.
    destruct (average_in_any_state store _ Hne) as [codes [Hgen Hrun]].
    destruct (average_in_any_state [] _ Hne) as [codes' [Hgen' Hrun']].
    rewrite Hgen in Hgen'. injection Hgen' as <-.
    cbn [weighted_length app] in Hrun'.
    eexists _, codes, _. split; [exact Hrun'|]. split; [exact Hrun|].
    pose proof (weighted_length_nonneg (chars (String c text))
                  (Z.of_nat (String.length (String c text))) store
                  ltac:(simpl; lia)).
    split; [lra|]. split; [lra | congruence].
Qed.

(** X9. The same for the joint coder: in any state
    [calculate_joint_average_codeword_length] returns the value of a first
    call plus the weighted lengths of the entries already in the shared
    list, and the list grows by the table of a first call. *)
Theorem X9_joint_average_never_below_first_call (store : CodeList) (text : string) :
  text <> "" ->
  exists pairs v0 codes v,
    joint_pairs text = Ok pairs /\
    calculate_joint_average_codeword_length [] text = Ok (v0, codes) /\
    calculate_joint_average_codeword_length store text = Ok (v, store ++ codes) /\
    v = (weighted_length (Counter pairs) (Z.of_nat (length pairs)) store + v0)%R /\
    (v0 <= v)%R.
Proof.
  intros Hne.
  destruct (joint_average_in_any_state store _ Hne)
    as [pairs [codes [Hpairs [Hp [Hgen [_ Hrun]]]]]].
  destruct (joint_average_in_any_state [] _ Hne)
    as [pairs' [codes' [Hpairs' [_ [Hgen' [_ Hrun']]]]]].
  rewrite Hpairs in Hpairs'. injection Hpairs' as <-.
  rewrite Hgen in Hgen'. injection Hgen' as <-.
  cbn [weighted_length app] in Hrun'.
  eexists pairs, _, codes, _. split; [exact Hpairs|].
  split; [exact Hrun'|]. split; [exact Hrun|].
  pose proof (weighted_length_nonneg pairs (Z.of_nat (length pairs)) store
                ltac:(destruct pairs; [congruence | simpl; lia])).
  split; lra.
Qed.

Lemma X9_witness :
  exists pairs v0 codes v,
    joint_pairs "ABCD" = Ok pairs /\
    calculate_joint_average_codeword_length [] "ABCD" = Ok (v0, codes) /\
    calculate_joint_average_codeword_length [(SymStr "AB", "0")] "ABCD" =
      Ok (v, [(SymStr "AB", "0")] ++ codes) /\
    v = (weighted_length (Counter pairs) (Z.of_nat (length pairs))
           [(SymStr "AB", "0")] + v0)%R /\
    (v0 <= v)%R.
Proof.
  apply (X9_joint_average_never_below_first_call [(SymStr "AB", "0")] "ABCD").
  discriminate.
Defined.

(** ** The analysis loop *)

Lemma first_order_entropy_total (text : string) :
  exists h, calculate_first_order_entropy text = Ok h.
Proof.
  destruct text as [|c text].
  - eexists. reflexivity.
  - destruct (first_order_entropy_spec (String c text)) as [h [Hh _]];
      [discriminate | eauto].
Qed.

Lemma second_order_entropy_total (text : string) :
  exists h, calculate_second_order_entropy text = Ok h.
Proof.
  destruct text as [|c text].
  - eexists. reflexivity.
  - destruct (second_order_entropy_spec (String c text)) as [h [Hh _]];
      [discriminate | eauto].
Qed.

Lemma average_total (store : CodeList) (text : string) :
  exists v codes,
    calculate_average_codeword_length store text = Ok (v, store ++ codes).
Proof.
  destruct text as [|c text].
  - exists 0%R, []. rewrite app_nil_r. reflexivity.
  - destruct (average_in_any_state store (String c text)) as [codes [_ Hrun]];
      [discriminate | eauto].
Qed.

Lemma joint_average_total (store : CodeList) (text : string) :
  exists v codes,
    calculate_joint_average_codeword_length store text = Ok (v, store ++ codes).
Proof.
  destruct text as [|c text].
  - exists 0%R, []. rewrite app_nil_r. reflexivity.
  - destruct (joint_average_in_any_state store (String c text))
      as [pairs [codes [_ [_ [_ [_ Hrun]]]]]]; [discriminate | eauto].
Qed.

Lemma analyse_text_total (store : CodeList) (text : string) :
  exists report codes,
    analyse_text store text = Ok (report, store ++ codes) /\
    input_string report = text.
Proof.
  unfold analyse_text.
  destruct (first_order_entropy_total text) as [h1 ->].
  destruct (second_order_entropy_total text) as [h2 ->].
  destruct (average_total store text) as [v [codes ->]].
  destruct (joint_average_total (store ++ codes) text) as [j [jcodes Hj]].
  cbn [bind]. rewrite Hj. cbn [bind].
  eexists _, (codes ++ jcodes). rewrite List.app_assoc. split; reflexivity.
Qed.

(** X10. The analysis loop raises on no input: for every list of lines,
    empty lines included, and every state of the shared list, it reports
    on every line in order, and the shared list is only extended. *)
Theorem X10_analysis_loop_never_raises (store : CodeList) (input_strings : list string) :
  exists reports added,
    run_text_analysis_tests store input_strings = Ok (reports, store ++ added) /\
    map input_string reports = input_strings.
Proof.
  revert store. induction input_strings as [|text rest IH]; intros store.
  - exists [], []. rewrite app_nil_r. split; reflexivity.
  - cbn [run_text_analysis_tests].
    destruct (analyse_text_total store text) as [report [codes [-> Htext]]].
    cbn [bind].
    destruct (IH (store ++ codes)) as [reports [added [-> Hmap]]].
    cbn [bind]. exists (report :: reports), (codes ++ added).
    rewrite List.app_assoc. split; [reflexivity|].
    cbn [map]. rewrite Htext, Hmap. reflexivity.
Qed.

Lemma one_char_not_a_pair (pairs : list string) (c : ascii) :
  Forall (fun p => String.length p = 2) pairs ->
  counter_get (Counter pairs) (String c "") = 0%Z.
Proof.
  intros Hlen. rewrite counter_get_Counter.
  rewrite (proj1 (count_occ_not_In string_dec pairs (String c ""))); [reflexivity|].
  intros Hin. rewrite Forall_forall in Hlen.
  apply list_elem_of_In, Hlen in Hin. discriminate.
Qed.

(** X11. The first line is reported with the values of first calls: the
    codes the single-symbol coder has left in the shared list carry
    one-character symbols, no pair of the joint coder equals one, and so
    they weigh 0 in the joint average.  After the line the shared list
    holds the single-symbol table followed by the joint table. *)
Theorem X11_first_line_reports_first_call_values (text : string) :
  exists h1 h2 v codes j jcodes,
    calculate_first_order_entropy text = Ok h1 /\
    calculate_second_order_entropy text = Ok h2 /\
    calculate_average_codeword_length [] text = Ok (v, codes) /\
    calculate_joint_average_codeword_length [] text = Ok (j, jcodes) /\
    analyse_text [] text = Ok (mkReport text h1 h2 v j, codes ++ jcodes).
Proof.
  destruct text as [|c text].
  - do 6 eexists. repeat split; reflexivity.
  - assert (Hne : String c text <> "") by discriminate.
    destruct (first_order_entropy_total (String c text)) as [h1 Hh1].
    destruct (second_order_entropy_total (String c text)) as [h2 Hh2].
    destruct (generate_huffman_codes_spec [] _ Hne) as [root [_ [Hg [_ [_ Hsyms]]]]].
    destruct (average_in_any_state [] _ Hne) as [codes [Hgen Havg]].
    rewrite Hg in Hgen. injection Hgen as <-.
    destruct (joint_average_in_any_state [] _ Hne)
      as [pairs [jcodes [Hpairs [Hp [Hjgen [_ Hj0]]]]]].
    destruct (joint_average_in_any_state (extract_huffman_codes root "" []) _ Hne)
      as [pairs' [jcodes' [Hpairs' [_ [Hjgen' [_ Hj1]]]]]].
    rewrite Hpairs in Hpairs'. injection Hpairs' as <-.
    rewrite Hjgen in Hjgen'. injection Hjgen' as <-.
    assert (Hzero : weighted_length (Counter pairs) (Z.of_nat (length pairs))
                      (extract_huffman_codes root "" []) = 0%R).
    { apply weighted_length_zero. intros e He.
      assert (Hs : fst e ∈ map fst (extract_huffman_codes root "" []))
        by (apply list_elem_of_fmap; eauto).
      rewrite Hsyms in Hs. apply list_elem_of_fmap in Hs as [k [-> Hk]].
      apply keys_Counter_elem, chars_elem in Hk as [a [-> _]].
      cbn [counter_get_sym]. apply one_char_not_a_pair.
      destruct (joint_pairs_partition (String c text)) as [ps [Hps [Hlen _]]].
      rewrite Hpairs in Hps. injection Hps as <-. exact Hlen. }
    rewrite Hzero in Hj1. cbn [app weighted_length] in Havg, Hj0.
    do 6 eexists. split; [exact Hh1|]. split; [exact Hh2|].
    split; [exact Havg|]. split; [exact Hj0|].
    unfold analyse_text. rewrite Hh1, Hh2. cbn [bind]. rewrite Havg.
    cbn [bind app]. rewrite Hj1. cbn [bind]. reflexivity.
Qed.

(** ** The shape of a code table *)

(** A table returned by a first call of either coder is read off a tree
    of the merge loop whose root has no code digit. *)
Lemma first_call_table_tree (text : string) (codes : CodeList) :
  generate_huffman_codes [] text = Ok (DefaultList, codes) \/
  generate_joint_huffman_codes [] text = Ok (DefaultList, codes) ->
  exists counter root,
    node_inv counter root /\ huff root = HuffEmpty /\
    codes = extract_huffman_codes root "" [] /\
    map fst codes ≡ₚ map SymStr (keys counter).
Proof.
  intros H. destruct text as [|c text].
  - destruct H as [H|H]; vm_compute in H; discriminate.
  - assert (Hne : String c text <> "") by discriminate.
    destruct H as [H|H].
    + destruct (generate_huffman_codes_spec [] _ Hne)
        as [root [_ [Hgen [Hinv [Hh Hsyms]]]]].
      rewrite Hgen in H. injection H as <-.
      exists (Counter (chars (String c text))), root. auto.
    + destruct (generate_joint_huffman_codes_spec [] _ Hne)
        as [pairs [root [_ [_ [_ [Hgen [Hinv [Hh Hsyms]]]]]]]].
      rewrite Hgen in H. injection H as <-.
      exists (Counter pairs), root. auto.
Qed.

Lemma string_length_app (a b : string) :
  String.length (a +:+ b) = String.length a + String.length b.
Proof.
  induction a as [|x a IH]; [reflexivity|].
  rewrite string_app_cons. cbn [String.length]. rewrite IH. reflexivity.
Qed.

Lemma is_bits_app (a b : string) : is_bits (a +:+ b) = is_bits a && is_bits b.
Proof.
  induction a as [|x a IH]; [reflexivity|].
  rewrite string_app_cons. cbn [is_bits]. rewrite IH, andb_assoc. reflexivity.
Qed.

Lemma extract_bits (counter : Counter_t) (n : Node) :
  node_inv counter n ->
  forall code, is_bits (code +:+ str_huff (huff n)) = true ->
    forall e, e ∈ extract_huffman_codes n code [] -> is_bits (snd e) = true.
Proof.
  induction n as [f s l r h IHl IHr] using Node_induction. intros Hinv code Hcode e He.
  destruct l as [ln|], r as [rn|]; cbn [node_inv extract_huffman_codes huff] in *;
    try contradiction.
  - destruct Hinv as [_ [H0 [H1 [Hl Hr]]]].
    rewrite extract_app in He. apply elem_of_app in He as [He|He].
    + apply (IHl Hl (code +:+ str_huff h)); [|exact He].
      rewrite H0, is_bits_app, Hcode. reflexivity.
    + apply (IHr Hr (code +:+ str_huff h)); [|exact He].
      rewrite H1, is_bits_app, Hcode. reflexivity.
  - apply list_elem_of_singleton in He. subst e. exact Hcode.
Qed.

Lemma Rsum_app (l1 l2 : list R) : Rsum (l1 ++ l2) = (Rsum l1 + Rsum l2)%R.
Proof. induction l1 as [|x l1 IH]; simpl; [lra | rewrite IH; lra]. Qed.

Lemma extract_kraft (counter : Counter_t) (n : Node) :
  node_inv counter n ->
  forall code,
    kraft_sum (extract_huffman_codes n code []) =
    ((1 / 2) ^ String.length (code +:+ str_huff (huff n)))%R.
Proof.
  induction n as [f s l r h IHl IHr] using Node_induction. intros Hinv code.
  destruct l as [ln|], r as [rn|]; cbn [node_inv extract_huffman_codes huff] in *;
    try contradiction.
  - destruct Hinv as [_ [H0 [H1 [Hl Hr]]]].
    rewrite extract_app. unfold kraft_sum in *.
    rewrite map_app, Rsum_app, (IHl Hl), (IHr Hr), H0, H1.
    rewrite !string_length_app.
    change (String.length (str_huff (HuffInt 0))) with 1.
    change (String.length (str_huff (HuffInt 1))) with 1.
    rewrite !pow_add. simpl. lra.
  - unfold kraft_sum. simpl. lra.
Qed.

Lemma node_inv_has_leaf (counter : Counter_t) (n : Node) :
  node_inv counter n -> 1 <= length (leaf_symbols n).
Proof.
  induction n as [f s l r h IHl IHr] using Node_induction. intros Hinv.
  destruct l as [ln|], r as [rn|]; cbn [node_inv leaf_symbols] in *;
    try contradiction.
  - destruct Hinv as [_ [_ [_ [Hl Hr]]]]. rewrite length_app.
    specialize (IHl Hl). lia.
  - simpl. lia.
Qed.

Lemma extract_length_bound (counter : Counter_t) (n : Node) :
  node_inv counter n ->
  forall code e, e ∈ extract_huffman_codes n code [] ->
    String.length (snd e) + 1 <=
    String.length (code +:+ str_huff (huff n)) + length (leaf_symbols n).
Proof.
  induction n as [f s l r h IHl IHr] using Node_induction. intros Hinv code e He.
  destruct l as [ln|], r as [rn|];
    cbn [node_inv extract_huffman_codes leaf_symbols huff] in *;
    try contradiction.
  - destruct Hinv as [_ [H0 [H1 [Hl Hr]]]].
    pose proof (node_inv_has_leaf _ _ Hl). pose proof (node_inv_has_leaf _ _ Hr).
    rewrite length_app.
    rewrite extract_app in He. apply elem_of_app in He as [He|He].
    + specialize (IHl Hl _ _ He). rewrite H0, string_length_app in IHl.
      change (String.length (str_huff (HuffInt 0))) with 1 in IHl. lia.
    + specialize (IHr Hr _ _ He). rewrite H1, string_length_app in IHr.
      change (String.length (str_huff (HuffInt 1))) with 1 in IHr. lia.
  - apply list_elem_of_singleton in He. subst e. simpl. lia.
Qed.

Lemma extract_length_lower (counter : Counter_t) (n : Node) :
  node_inv counter n ->
  forall code e, e ∈ extract_huffman_codes n code [] ->
    String.length (code +:+ str_huff (huff n)) <= String.length (snd e) /\
    (String.length (snd e) = String.length (code +:+ str_huff (huff n)) ->
     leaf_symbols n = [fst e]).
Proof.
  intros Hinv code e He. destruct n as [f s l r h].
  destruct l as [ln|], r as [rn|];
    cbn [node_inv extract_huffman_codes leaf_symbols huff] in *;
    try contradiction.
  - assert (Hlong : String.length (code +:+ str_huff h) < String.length (snd e)).
    { destruct Hinv as [_ [H0 [H1 _]]].
      rewrite extract_app in He. apply elem_of_app in He as [He|He];
        apply extract_extends in He as [rest ->];
        rewrite ?H0, ?H1, !string_length_app;
        [change (String.length (str_huff (HuffInt 0))) with 1
        |change (String.length (str_huff (HuffInt 1))) with 1]; lia. }
    lia.
  - apply list_elem_of_singleton in He. subst e. simpl. auto.
Qed.

(** X12. The codes of a table are bit strings: in the table a first call
    of either coder returns, every code consists of the characters 0 and
    1 only. *)
Theorem X12_codes_are_bit_strings (text : string) (codes : CodeList) :
  generate_huffman_codes [] text = Ok (DefaultList, codes) \/
  generate_joint_huffman_codes [] text = Ok (DefaultList, codes) ->
  forall s c, (s, c) ∈ codes -> is_bits c = true.
Proof.
  intros H s c Hin.
  destruct (first_call_table_tree text codes H) as [counter [root [Hinv [Hh [-> _]]]]].
  apply (extract_bits counter root Hinv "" ltac:(rewrite Hh; reflexivity) (s, c) Hin).
Qed.

Lemma X12_witness : is_bits "0" = true.
Proof.
  apply (X12_codes_are_bit_strings "AAAB" [(SymStr "B", "0"); (SymStr "A", "1")])
    with (s := SymStr "B").
  - left. vm_compute. reflexivity.
  - apply list_elem_of_here.
Defined.

(** X13. The code is complete: over the table a first call of either
    coder returns, the sum of [2 ^ - len(code)] is exactly 1 (Kraft's
    inequality holds with equality). *)
Theorem X13_kraft_sum_is_one (text : string) (codes : CodeList) :
  generate_huffman_codes [] text = Ok (DefaultList, codes) \/
  generate_joint_huffman_codes [] text = Ok (DefaultList, codes) ->
  kraft_sum codes = 1%R.
Proof.
  intros H.
  destruct (first_call_table_tree text codes H) as [counter [root [Hinv [Hh [-> _]]]]].
  rewrite (extract_kraft counter root Hinv ""), Hh. simpl. lra.
Qed.

Lemma X13_witness :
  kraft_sum [(SymStr "AB", "0"); (SymStr "C_", "1")] = 1%R.
Proof.
  apply (X13_kraft_sum_is_one "ABC"). right. vm_compute. reflexivity.
Defined.

(** X14. The empty code occurs only in the degenerate table: if the
    table a first call of either coder returns gives some symbol the
    empty code, that entry is the whole table. *)
Theorem X14_empty_code_only_alone (text : string) (codes : CodeList) :
  generate_huffman_codes [] text = Ok (DefaultList, codes) \/
  generate_joint_huffman_codes [] text = Ok (DefaultList, codes) ->
  forall s, (s, "") ∈ codes -> codes = [(s, "")].
Proof.
  intros H s Hin.
  destruct (first_call_table_tree text codes H) as [counter [root [Hinv [Hh [-> _]]]]].
  destruct (extract_length_lower counter root Hinv "" (s, "") Hin) as [_ Hone].
  rewrite Hh in Hone. specialize (Hone eq_refl). cbn [fst] in Hone.
  rewrite <- (extract_symbols root "") in Hone.
  destruct (extract_huffman_codes root "" []) as [|e [|e' rest]];
    [inversion Hin | | discriminate].
  apply list_elem_of_singleton in Hin. subst e. reflexivity.
Qed.

Lemma X14_witness : [(SymStr "A", "")] = [(SymStr "A", "")].
Proof.
  apply (X14_empty_code_only_alone "AAAA" [(SymStr "A", "")]).
  - left. vm_compute. reflexivity.
  - apply list_elem_of_here.
Defined.

(** X15. No code is longer than the number of symbols minus one: in the
    table a first call of either coder returns, [len(code) + 1] is at
    most the number of entries. *)
Theorem X15_code_length_below_table_size (text : string) (codes : CodeList) :
  generate_huffman_codes [] text = Ok (DefaultList, codes) \/
  generate_joint_huffman_codes [] text = Ok (DefaultList, codes) ->
  forall s c, (s, c) ∈ codes -> String.length c + 1 <= length codes.
Proof.
  intros H s c Hin.
  destruct (first_call_table_tree text codes H) as [counter [root [Hinv [Hh [-> _]]]]].
  pose proof (extract_length_bound counter root Hinv "" (s, c) Hin) as Hb.
  rewrite Hh in Hb. cbn [snd] in Hb. simpl String.length in Hb.
  rewrite <- (extract_symbols root ""), length_map in Hb. exact Hb.
Qed.

Lemma X15_witness :
  String.length "0" + 1 <= length [(SymStr "B", "0"); (SymStr "A", "1")].
Proof.
  apply (X15_code_length_below_table_size "AAAB"
           [(SymStr "B", "0"); (SymStr "A", "1")]) with (s := SymStr "B").
  - left. vm_compute. reflexivity.
  - apply list_elem_of_here.
Defined.

(** ** Entropy against average length *)

Lemma Rsum_perm (l1 l2 : list R) : l1 ≡ₚ l2 -> Rsum l1 = Rsum l2.
Proof.
  induction 1 as [|x l l' _ IH|x y l|l l' l'' _ IH1 _ IH2]; simpl; lra.
Qed.

Lemma Rsum_cons (x : R) (l : list R) : Rsum (x :: l) = (x + Rsum l)%R.
Proof. reflexivity. Qed.

Lemma ln_le_minus_1 (y : R) : (0 < y)%R -> (ln y <= y - 1)%R.
Proof.
  intros Hy. pose proof (exp_ineq1_le (ln y)) as H.
  rewrite exp_ln in H by exact Hy. lra.
Qed.

Lemma ln_half_pow (L : nat) : ln ((1 / 2) ^ L) = (- (INR L * ln 2))%R.
Proof.
  rewrite ln_pow by lra. replace (1 / 2)%R with (/ 2)%R by lra.
  rewrite ln_Rinv by lra. lra.
Qed.

(** One term of Gibbs' inequality, for a code of length [L] given to a
    symbol of probability [p]. *)
Lemma gibbs_term (p : R) (L : nat) :
  (0 < p)%R ->
  ((p - (1 / 2) ^ L) / ln 2 <= p * INR L + p * log2 p)%R.
Proof.
  intros Hp. set (q := ((1 / 2) ^ L)%R).
  assert (Hq : (0 < q)%R) by (apply pow_lt; lra).
  assert (Hy : (0 < q * / p)%R)
    by (apply Rmult_lt_0_compat; [exact Hq | apply Rinv_0_lt_compat, Hp]).
  pose proof (ln_le_minus_1 _ Hy) as Hln.
  rewrite ln_mult in Hln by (try apply Rinv_0_lt_compat; assumption).
  rewrite ln_Rinv in Hln by exact Hp.
  unfold q in Hln at 1. rewrite ln_half_pow in Hln.
  assert (Hmul : (p * (- (INR L * ln 2) + - ln p) <= q - p)%R).
  { assert (Hpq : (p * (q * / p - 1) = q - p)%R) by (field; lra).
    rewrite <- Hpq. apply Rmult_le_compat_l; lra. }
  pose proof ln_2_pos as H2.
  assert (Hi : (0 < / ln 2)%R) by (apply Rinv_0_lt_compat, H2).
  unfold log2, Rdiv.
  assert (Hgoal : ((p - q) * / ln 2 <=
                   (p * INR L * ln 2 + p * ln p) * / ln 2)%R)
    by (apply Rmult_le_compat_r; lra).
  replace (p * INR L + p * (ln p * / ln 2))%R
    with ((p * INR L * ln 2 + p * ln p) * / ln 2)%R by (field; lra).
  exact Hgoal.
Qed.

Section Gibbs.

Variable counter : Counter_t.
Variable n : Z.

Lemma weighted_length_gibbs (codes : CodeList) :
  (forall e, e ∈ codes -> (0 < probability counter n (fst e))%R) ->
  ((Rsum (map (fun e => probability counter n (fst e)) codes) - kraft_sum codes) / ln 2 <=
   weighted_length counter n codes +
   Rsum (map (fun e => probability counter n (fst e) * log2 (probability counter n (fst e))) codes))%R.
Proof.
  unfold kraft_sum.
  induction codes as [|[s c] codes IH]; intros Hpos.
  - simpl. lra.
  - cbn [map weighted_length fst snd]. rewrite !Rsum_cons.
    pose proof (gibbs_term (probability counter n s) (String.length c)
                  (Hpos (s, c) (list_elem_of_here _ _))) as Hterm.
    specialize (IH (fun e He => Hpos e (list_elem_of_further _ _ _ He))).
    rewrite INR_IZR_INZ in Hterm. fold (probability counter n s).
    pose proof ln_2_pos as H2.
    assert (Hsplit : forall a b c' d : R,
               ((a + b - (c' + d)) / ln 2 = (a - c') / ln 2 + (b - d) / ln 2)%R)
      by (intros; field; lra).
    rewrite Hsplit. lra.
Qed.

Lemma weighted_length_between (codes : CodeList) (lo hi : nat) :
  (forall e, e ∈ codes -> (0 <= probability counter n (fst e))%R) ->
  (forall e, e ∈ codes -> lo <= String.length (snd e) <= hi) ->
  (INR lo * Rsum (map (fun e => probability counter n (fst e)) codes) <=
     weighted_length counter n codes <=
   INR hi * Rsum (map (fun e => probability counter n (fst e)) codes))%R.
Proof.
  induction codes as [|[s c] codes IH]; intros Hpos Hlen.
  - simpl. lra.
  - cbn [map weighted_length fst]. rewrite Rsum_cons. fold (probability counter n s).
    specialize (IH (fun e He => Hpos e (list_elem_of_further _ _ _ He))
                   (fun e He => Hlen e (list_elem_of_further _ _ _ He))).
    pose proof (Hpos (s, c) (list_elem_of_here _ _)) as Hp. cbn [fst] in Hp.
    destruct (Hlen (s, c) (list_elem_of_here _ _)) as [Hlo Hhi]. cbn [snd] in *.
    rewrite <- INR_IZR_INZ.
    apply le_INR in Hlo, Hhi.
    assert (probability counter n s * INR lo <= probability counter n s * INR (String.length c))%R
      by (apply Rmult_le_compat_l; assumption).
    assert (probability counter n s * INR (String.length c) <= probability counter n s * INR hi)%R
      by (apply Rmult_le_compat_l; assumption).
    lra.
Qed.

End Gibbs.

Lemma entropy_loop_sum (counter : Counter_t) (n : Z) (ks : list string) :
  n <> 0%Z ->
  forall acc,
    entropy_loop counter n ks acc =
    Ok (acc + Rsum (map (fun k => probability counter n (SymStr k) *
                                  log2 (probability counter n (SymStr k))) ks))%R.
Proof.
  intros Hn. induction ks as [|k ks IH]; intros acc; cbn [entropy_loop map].
  - f_equal. simpl. lra.
  - rewrite py_div_ok by exact Hn. cbn [bind]. rewrite IH, Rsum_cons.
    f_equal. unfold probability. cbn [counter_get_sym]. lra.
Qed.

(** A sum over the entries of a table that has one entry per key is a
    sum over the keys. *)
Lemma Rsum_over_table (F : PySym -> R) (codes : CodeList) (ks : list string) :
  map fst codes ≡ₚ map SymStr ks ->
  Rsum (map (fun e => F (fst e)) codes) = Rsum (map (fun k => F (SymStr k)) ks).
Proof.
  intros Hperm.
  rewrite <- (map_map fst F codes), <- (map_map SymStr F ks).
  apply Rsum_perm, fmap_Permutation, Hperm.
Qed.

Lemma Rsum_probabilities (counter : Counter_t) (n : Z) (ks : list string) :
  Rsum (map (fun k => probability counter n (SymStr k)) ks) =
  (IZR (Zsum (map (counter_get counter) ks)) / IZR n)%R.
Proof.
  induction ks as [|k ks IH]; cbn [map].
  - simpl. unfold Rdiv. rewrite Rmult_0_l. reflexivity.
  - rewrite Rsum_cons, Zsum_cons, plus_IZR, IH.
    unfold probability. cbn [counter_get_sym]. unfold Rdiv. lra.
Qed.

(** The probabilities of the keys of a counter add up to 1. *)
Lemma probabilities_total (items : list string) :
  items <> [] ->
  Rsum (map (fun k => probability (Counter items) (Z.of_nat (length items))
                        (SymStr k))
          (keys (Counter items))) = 1%R.
Proof.
  intros Hne. rewrite Rsum_probabilities, Counter_counts_total.
  apply Rinv_r, not_0_IZR. destruct items; [congruence | simpl; lia].
Qed.

Lemma probability_pos (items : list string) (k : string) :
  k ∈ keys (Counter items) ->
  (0 < probability (Counter items) (Z.of_nat (length items)) (SymStr k))%R.
Proof.
  intros Hk. unfold probability. cbn [counter_get_sym].
  pose proof (counter_get_pos items k Hk) as Hc.
  pose proof (counter_get_le items k) as Hle.
  apply Rdiv_lt_0_compat; apply IZR_lt; lia.
Qed.

Lemma table_probability_pos (items : list string) (codes : CodeList) :
  map fst codes ≡ₚ map SymStr (keys (Counter items)) ->
  forall e, e ∈ codes ->
    (0 < probability (Counter items) (Z.of_nat (length items)) (fst e))%R.
Proof.
  intros Hperm e He.
  assert (Hs : fst e ∈ map fst codes) by (apply list_elem_of_fmap; eauto).
  rewrite Hperm in Hs. apply list_elem_of_fmap in Hs as [k [-> Hk]].
  apply probability_pos, Hk.
Qed.

(** Gibbs' inequality for a complete table over the keys of a counter:
    the entropy of the counts is at most the weighted code length. *)
Lemma entropy_le_weighted_length (items : list string) (codes : CodeList) :
  items <> [] ->
  map fst codes ≡ₚ map SymStr (keys (Counter items)) ->
  kraft_sum codes = 1%R ->
  exists e,
    entropy_loop (Counter items) (Z.of_nat (length items))
      (keys (Counter items)) 0%R = Ok e /\
    (- e <= weighted_length (Counter items) (Z.of_nat (length items)) codes)%R.
Proof.
  intros Hne Hperm Hkraft.
  assert (Hn : Z.of_nat (length items) <> 0%Z)
    by (destruct items; [congruence | simpl; lia]).
  rewrite entropy_loop_sum by exact Hn. eexists. split; [reflexivity|].
  pose proof (weighted_length_gibbs (Counter items) (Z.of_nat (length items)) codes
                (table_probability_pos items codes Hperm)) as Hg.
  rewrite Hkraft in Hg.
  rewrite (Rsum_over_table
             (fun s => probability (Counter items) (Z.of_nat (length items)) s)
             codes _ Hperm) in Hg.
  rewrite (Rsum_over_table
             (fun s => (probability (Counter items) (Z.of_nat (length items)) s *
                        log2 (probability (Counter items)
                                (Z.of_nat (length items)) s))%R)
             codes _ Hperm) in Hg.
  rewrite probabilities_total in Hg by exact Hne.
  replace ((1 - 1) / ln 2)%R with 0%R in Hg by (unfold Rdiv; lra).
  lra.
Qed.

(** X16. The entropy bounds the code from below: for every non-empty
    text, the average length a first call of
    [calculate_average_codeword_length] returns is at least the
    first-order entropy of the text. *)
Theorem X16_entropy_at_most_average_length (text : string) :
  text <> "" ->
  exists h v codes,
    calculate_first_order_entropy text = Ok h /\
    calculate_average_codeword_length [] text = Ok (v, codes) /\
    (h <= v)%R.
Proof.
  intros Hne.
  destruct (generate_huffman_codes_spec [] text Hne)
    as [root [_ [Hgen [Hinv [Hh Hsyms]]]]].
  cbn [app] in Hgen.
  destruct (entropy_le_weighted_length (chars text) (extract_huffman_codes root "" []))
    as [e [He Hle]].
  - apply chars_nonempty, Hne.
  - exact Hsyms.
  - rewrite (extract_kraft _ root Hinv ""), Hh. simpl. lra.
  - rewrite chars_length in He, Hle.
    exists (- e)%R, (weighted_length (Counter (chars text))
                       (Z.of_nat (String.length text))
                       (extract_huffman_codes root "" [])),
           (extract_huffman_codes root "" []).
    split; [|split; [|exact Hle]].
    + unfold calculate_first_order_entropy. rewrite He. reflexivity.
    + unfold calculate_average_codeword_length. rewrite Hgen. cbn [bind deref].
      pose proof (string_length_pos text Hne).
      rewrite avg_loop_spec by lia. cbn [bind]. do 2 f_equal. lra.
Qed.

Lemma X16_witness :
  exists h v codes,
    calculate_first_order_entropy "AAAB" = Ok h /\
    calculate_average_codeword_length [] "AAAB" = Ok (v, codes) /\
    (h <= v)%R.
Proof. apply (X16_entropy_at_most_average_length "AAAB"). discriminate. Defined.

(** X17. With at least two symbols the average length lies between 1
    and the number of symbols minus one: if a first call of
    [calculate_average_codeword_length] returns [v] and a table of [d >= 2]
    entries, then [1 <= v <= d - 1]. *)
Theorem X17_average_length_bounds (text : string) (v : R) (codes : CodeList) :
  calculate_average_codeword_length [] text = Ok (v, codes) ->
  2 <= length codes ->
  (1 <= v <= INR (length codes) - 1)%R.
Proof.
  intros Hrun Hd.
  assert (Hne : text <> "").
  { intros ->. vm_compute in Hrun. injection Hrun as _ <-. simpl in Hd. lia. }
  destruct (generate_huffman_codes_spec [] _ Hne)
    as [root [_ [Hgen [Hinv [Hh Hsyms]]]]].
  destruct (average_in_any_state [] _ Hne) as [codes' [Hgen' Havg]].
  rewrite Hgen in Hgen'. injection Hgen' as <-.
  rewrite Havg in Hrun. injection Hrun as <- <-.
  change ([] ++ extract_huffman_codes root "" [])
    with (extract_huffman_codes root "" []) in *.
  set (table := extract_huffman_codes root "" []) in *.
  set (n := Z.of_nat (String.length text)).
  change (weighted_length (Counter (chars text)) n []) with 0%R.
  assert (Hn : n = Z.of_nat (length (chars text)))
    by (unfold n; rewrite chars_length; reflexivity).
  destruct (weighted_length_between (Counter (chars text)) n table
              1 (length table - 1)) as [Hlo Hhi].
  - intros e He. rewrite Hn.
    apply Rlt_le, table_probability_pos with (codes := table); auto.
  - intros e He. split.
    + destruct (extract_length_lower _ root Hinv "" e He) as [_ Hone].
      rewrite Hh in Hone.
      destruct (String.length (snd e)) eqn:El; [|lia].
      specialize (Hone eq_refl).
      rewrite <- (extract_symbols root "") in Hone. fold table in Hone.
      apply (f_equal (@length _)) in Hone. rewrite length_map in Hone.
      simpl in Hone. lia.
    + pose proof (extract_length_bound _ root Hinv "" e He) as Hb.
      rewrite Hh in Hb. simpl String.length in Hb.
      rewrite <- (extract_symbols root ""), length_map in Hb.
      fold table in Hb. lia.
  - rewrite (Rsum_over_table (fun s => probability (Counter (chars text)) n s)
               table _ Hsyms) in Hlo, Hhi.
    rewrite Hn, probabilities_total in Hlo, Hhi by (apply chars_nonempty, Hne).
    rewrite <- Hn in Hlo, Hhi.
    rewrite minus_INR in Hhi by lia. simpl INR in Hlo, Hhi. lra.
Qed.

Lemma X17_witness :
  (1 <= 0 + 1 / 2 * 1 + 1 / 2 * 1 <=
   INR (length [(SymStr "A", "0"); (SymStr "B", "1")]) - 1)%R.
Proof.
  apply (X17_average_length_bounds "AB").
  - vm_compute. reflexivity.
  - simpl. lia.
Defined.

(** X18. For a text of even length the two pairwise figures compare per
    pair: twice the second-order entropy (which is per original symbol) is
    at most the joint average length of a first call (which is per
    pair). *)
Theorem X18_pair_entropy_at_most_joint_average (text : string) :
  text <> "" -> String.length text mod 2 = 0 ->
  exists h2 j jcodes,
    calculate_second_order_entropy text = Ok h2 /\
    calculate_joint_average_codeword_length [] text = Ok (j, jcodes) /\
    (2 * h2 <= j)%R.
Proof.
  intros Hne Heven.
  destruct (generate_joint_huffman_codes_spec [] text Hne)
    as [pairs [root [Hpairs [Hp [_ [_ [Hinv [Hh Hsyms]]]]]]]].
  assert (Hsame : pairs = pairs_of text).
  { unfold joint_pairs in Hpairs. rewrite Heven in Hpairs.
    cbn [Nat.eqb] in Hpairs. congruence. }
  subst pairs.
  destruct (joint_average_in_any_state [] text Hne)
    as [pairs' [jcodes [Hpairs' [_ [Hgen [Hsyms' Hrun]]]]]].
  rewrite Hpairs in Hpairs'. injection Hpairs' as <-.
  destruct (entropy_le_weighted_length (pairs_of text) jcodes Hp Hsyms')
    as [e [He Hle]].
  - destruct (first_call_table_tree text jcodes (or_intror Hgen))
      as [counter [root' [Hinv' [Hh' [-> _]]]]].
    rewrite (extract_kraft _ root' Hinv' ""), Hh'. simpl. lra.
  - cbn [weighted_length] in Hrun.
    eexists _, _, jcodes. split; [|split; [exact Hrun|]].
    + unfold calculate_second_order_entropy. rewrite He. reflexivity.
    + lra.
Qed.

Lemma X18_witness :
  exists h2 j jcodes,
    calculate_second_order_entropy "ABCD" = Ok h2 /\
    calculate_joint_average_codeword_length [] "ABCD" = Ok (j, jcodes) /\
    (2 * h2 <= j)%R.
Proof.
  apply (X18_pair_entropy_at_most_joint_average "ABCD");
    [discriminate | reflexivity].
Defined.

(** One term of the bound of the entropy by the logarithm of the number
    of symbols. *)
Lemma log_bound_term (p d : R) :
  (0 < p)%R -> (0 < d)%R ->
  (- (p * log2 p) <= p * log2 d + (/ d - p) / ln 2)%R.
Proof.
  intros Hp Hd.
  assert (Hy : (0 < / (d * p))%R)
    by (apply Rinv_0_lt_compat, Rmult_lt_0_compat; assumption).
  pose proof (ln_le_minus_1 _ Hy) as Hln.
  rewrite ln_Rinv in Hln by (apply Rmult_lt_0_compat; assumption).
  rewrite ln_mult in Hln by assumption.
  assert (Hmul : (p * (- (ln d + ln p)) <= / d - p)%R).
  { assert (Hpq : (p * (/ (d * p) - 1) = / d - p)%R) by (field; lra).
    rewrite <- Hpq. apply Rmult_le_compat_l; lra. }
  pose proof ln_2_pos as H2.
  assert (Hi : (0 < / ln 2)%R) by (apply Rinv_0_lt_compat, H2).
  unfold log2, Rdiv.
  assert (Hgoal : ((- (p * ln p)) * / ln 2 <=
                   (p * ln d + (/ d - p)) * / ln 2)%R)
    by (apply Rmult_le_compat_r; lra).
  replace (- (p * (ln p * / ln 2)))%R with ((- (p * ln p)) * / ln 2)%R
    by (field; lra).
  replace (p * (ln d * / ln 2) + (/ d - p) * / ln 2)%R
    with ((p * ln d + (/ d - p)) * / ln 2)%R by (field; lra).
  exact Hgoal.
Qed.

Lemma entropy_sum_log_bound (counter : Counter_t) (n : Z) (d : R) (ks : list string) :
  (0 < d)%R ->
  (forall k, k ∈ ks -> (0 < probability counter n (SymStr k))%R) ->
  (- Rsum (map (fun k => probability counter n (SymStr k) *
                         log2 (probability counter n (SymStr k))) ks) <=
   log2 d * Rsum (map (fun k => probability counter n (SymStr k)) ks) +
   (INR (length ks) * / d -
    Rsum (map (fun k => probability counter n (SymStr k)) ks)) / ln 2)%R.
Proof.
  intros Hd. induction ks as [|k ks IH]; intros Hpos.
  - simpl. unfold Rdiv. lra.
  - cbn [map length]. rewrite !Rsum_cons, S_INR.
    specialize (IH (fun k' Hk' => Hpos k' (list_elem_of_further _ _ _ Hk'))).
    pose proof (log_bound_term _ d (Hpos k (list_elem_of_here _ _)) Hd) as Ht.
    pose proof ln_2_pos as H2.
    assert (Hsplit : forall a b c' : R,
               (((a + 1) * / d - (b + c')) / ln 2 =
                (a * / d - c') / ln 2 + (/ d - b) / ln 2)%R)
      by (intros; field; lra).
    rewrite Hsplit. lra.
Qed.

(** The entropy of the counts of [items] is at most the logarithm of the
    number of distinct items. *)
Lemma entropy_le_log_distinct (items : list string) :
  items <> [] ->
  exists e,
    entropy_loop (Counter items) (Z.of_nat (length items))
      (keys (Counter items)) 0%R = Ok e /\
    (- e <= log2 (INR (length (keys (Counter items)))))%R.
Proof.
  intros Hne.
  assert (Hn : Z.of_nat (length items) <> 0%Z)
    by (destruct items; [congruence | simpl; lia]).
  rewrite entropy_loop_sum by exact Hn. eexists. split; [reflexivity|].
  assert (Hd : (0 < INR (length (keys (Counter items))))%R).
  { apply lt_0_INR. destruct items as [|x items]; [congruence|].
    assert (Hx : x ∈ keys (Counter (x :: items)))
      by (apply keys_Counter_elem, list_elem_of_here).
    destruct (keys (Counter (x :: items))); [inversion Hx | simpl; lia]. }
  pose proof (entropy_sum_log_bound (Counter items) (Z.of_nat (length items))
                _ (keys (Counter items)) Hd
                (fun k Hk => probability_pos items k Hk)) as Hb.
  rewrite probabilities_total in Hb by exact Hne.
  rewrite Rinv_r in Hb by lra.
  replace ((1 - 1) / ln 2)%R with 0%R in Hb by (unfold Rdiv; lra).
  lra.
Qed.

(** X19. The entropies are bounded by the size of the alphabet: for
    every non-empty text the first-order entropy is at most [log2] of the
    number of distinct characters, and the second-order entropy at most
    half of [log2] of the number of distinct pairs. *)
Theorem X19_entropy_at_most_log_of_alphabet (text : string) :
  text <> "" ->
  exists h1 h2,
    calculate_first_order_entropy text = Ok h1 /\
    calculate_second_order_entropy text = Ok h2 /\
    (h1 <= log2 (INR (length (keys (Counter (chars text))))))%R /\
    (h2 <= log2 (INR (length (keys (Counter (pairs_of text))))) / 2)%R.
Proof.
  intros Hne.
  destruct (entropy_le_log_distinct (chars text) (chars_nonempty text Hne))
    as [e1 [He1 Hb1]].
  assert (Hp : pairs_of text <> []).
  { destruct (joint_pairs_nonempty text Hne) as [ps [Hps Hnil]].
    intros Hn. unfold joint_pairs in Hps. rewrite Hn in Hps.
    destruct (String.length text mod 2 =? 1); [discriminate|]. congruence. }
  destruct (entropy_le_log_distinct (pairs_of text) Hp) as [e2 [He2 Hb2]].
  rewrite chars_length in He1.
  exists (- e1)%R, (- e2 / 2)%R.
  split; [unfold calculate_first_order_entropy; rewrite He1; reflexivity|].
  split; [unfold calculate_second_order_entropy; rewrite He2; reflexivity|].
  split; lra.
Qed.

Lemma X19_witness :
  exists h1 h2,
    calculate_first_order_entropy "AAAB" = Ok h1 /\
    calculate_second_order_entropy "AAAB" = Ok h2 /\
    (h1 <= log2 (INR (length (keys (Counter (chars "AAAB"))))))%R /\
    (h2 <= log2 (INR (length (keys (Counter (pairs_of "AAAB"))))) / 2)%R.
Proof. apply (X19_entropy_at_most_log_of_alphabet "AAAB"). discriminate. Defined.

(** X20. The probabilities the loops compute add up to 1: for every
    non-empty text, the quotients [counter[symbol] / n] over the distinct
    characters, and over the distinct pairs of either pairwise function,
    sum to 1. *)
Theorem X20_probabilities_sum_to_one (text : string) :
  text <> "" ->
  Rsum (map (fun k => probability (Counter (chars text))
                        (Z.of_nat (String.length text)) (SymStr k))
          (keys (Counter (chars text)))) = 1%R /\
  Rsum (map (fun k => probability (Counter (pairs_of text))
                        (Z.of_nat (length (pairs_of text))) (SymStr k))
          (keys (Counter (pairs_of text)))) = 1%R /\
  exists pairs,
    joint_pairs text = Ok pairs /\
    Rsum (map (fun k => probability (Counter pairs)
                          (Z.of_nat (length pairs)) (SymStr k))
            (keys (Counter pairs))) = 1%R.
Proof.
  intros Hne. split; [|split].
  - rewrite <- chars_length. apply probabilities_total, chars_nonempty, Hne.
  - apply probabilities_total.
    destruct (joint_pairs_nonempty text Hne) as [ps [Hps Hnil]].
    intros Hn. unfold joint_pairs in Hps. rewrite Hn in Hps.
    destruct (String.length text mod 2 =? 1); [discriminate|]. congruence.
  - destruct (joint_pairs_nonempty text Hne) as [ps [Hps Hnil]].
    exists ps. split; [exact Hps|]. apply probabilities_total, Hnil.
Qed.

Lemma X20_witness :
  Rsum (map (fun k => probability (Counter (chars "ABC"))
                        (Z.of_nat (String.length "ABC")) (SymStr k))
          (keys (Counter (chars "ABC")))) = 1%R /\
  Rsum (map (fun k => probability (Counter (pairs_of "ABC"))
                        (Z.of_nat (length (pairs_of "ABC"))) (SymStr k))
          (keys (Counter (pairs_of "ABC")))) = 1%R /\
  exists pairs,
    joint_pairs "ABC" = Ok pairs /\
    Rsum (map (fun k => probability (Counter pairs)
                          (Z.of_nat (length pairs)) (SymStr k))
            (keys (Counter pairs))) = 1%R.
Proof. apply (X20_probabilities_sum_to_one "ABC"). discriminate. Defined.

(** X21. A second call on the same text doubles the figure: for every
    non-empty text, when the shared list holds exactly the table of a
    first call, [calculate_average_codeword_length] and
    [calculate_joint_average_codeword_length] return twice what the first
    call returned, and leave the table twice in the list. *)
Theorem X21_second_call_doubles_the_average (text : string) :
  text <> "" ->
  (exists v codes,
     calculate_average_codeword_length [] text = Ok (v, codes) /\
     calculate_average_codeword_length codes text =
       Ok ((2 * v)%R, codes ++ codes)) /\
  (exists j jcodes,
     calculate_joint_average_codeword_length [] text = Ok (j, jcodes) /\
     calculate_joint_average_codeword_length jcodes text =
       Ok ((2 * j)%R, jcodes ++ jcodes)).
Proof.
  intros Hne. split.
  - destruct (average_in_any_state [] text Hne) as [codes [Hgen H0]].
    destruct (average_in_any_state codes text Hne) as [codes' [Hgen' H1]].
    rewrite Hgen in Hgen'. injection Hgen' as <-.
    cbn [weighted_length app] in H0.
    eexists _, codes. split; [exact H0|]. rewrite H1. do 2 f_equal. lra.
  - destruct (joint_average_in_any_state [] text Hne)
      as [pairs [jcodes [Hpairs [_ [Hgen [_ H0]]]]]].
    destruct (joint_average_in_any_state jcodes text Hne)
      as [pairs' [jcodes' [Hpairs' [_ [Hgen' [_ H1]]]]]].
    rewrite Hpairs in Hpairs'. injection Hpairs' as <-.
    rewrite Hgen in Hgen'. injection Hgen' as <-.
    cbn [weighted_length app] in H0.
    eexists _, jcodes. split; [exact H0|]. rewrite H1. do 2 f_equal. lra.
Qed.

Lemma X21_witness :
  (exists v codes,
     calculate_average_codeword_length [] "AAAB" = Ok (v, codes) /\
     calculate_average_codeword_length codes "AAAB" =
       Ok ((2 * v)%R, codes ++ codes)) /\
  (exists j jcodes,
     calculate_joint_average_codeword_length [] "AAAB" = Ok (j, jcodes) /\
     calculate_joint_average_codeword_length jcodes "AAAB" =
       Ok ((2 * j)%R, jcodes ++ jcodes)).
Proof. apply (X21_second_call_doubles_the_average "AAAB"). discriminate. Defined.
